(** * pyNCMDUMP: the NCM container converter of [ncm_converter.py]

    A shallow embedding of [dump_single_file], [merge_audio_with_cover],
    [connect_and_write_pipe] and [dump], and the properties of the
    container parser, the key schedule and the audio stream cipher.

    Bytes are integers in [0, 256) held in [Z]; a [bytes] or [bytearray]
    object is a [list Z].  Python exceptions are values of [exn], and code
    that can raise returns a [result]. *)

From Stdlib Require Import ZArith Lia List Bool QArith.
From stdpp Require Import base tactics option list sorting strings pretty gmap.

Local Open Scope Z_scope.
Set Warnings "-register-all".

(** ** Exceptions and results *)

Inductive exn : Set :=
  | AssertionError
  | IndexError
  | KeyError
  | TypeError
  | ValueError
  | StructError
  | BinasciiError
  | UnicodeDecodeError
  | JSONDecodeError
  | FileNotFoundError
  | KeyboardInterrupt
  | SystemExit.

Inductive result (A : Type) : Type :=
  | Ok (a : A)
  | Raise (e : exn).
Arguments Ok {A} a.
Arguments Raise {A} e.

#[global] Instance exn_eq_dec : EqDecision exn.
Proof. solve_decision. Defined.

#[global] Instance result_ret : MRet result := @Ok.
#[global] Instance result_bind : MBind result := fun A B f m =>
  match m with
  | Ok a => f a
  | Raise e => Raise e
  end.

#[global] Instance result_fmap : FMap result := fun A B f m =>
  match m with
  | Ok a => Ok (f a)
  | Raise e => Raise e
  end.

(** ** Python sequences *)

Abbreviation bytes := (list Z).

(** [range(start, start + count)] driving a loop body that threads its
    state and may raise. *)
Fixpoint for_range {St : Type} (start : Z) (count : nat)
    (body : Z -> St -> result St) (s : St) : result St :=
  match count with
  | O => Ok s
  | S count' => s' ← body start s; for_range (start + 1) count' body s'
  end.

(** An index as Python reads it: a negative one counts from the end. *)
Definition index_of_int (s : bytes) (i : Z) : option nat :=
  let k := if i <? 0 then i + Z.of_nat (length s) else i in
  if (0 <=? k) && (k <? Z.of_nat (length s)) then Some (Z.to_nat k) else None.

(** [s[i]]. *)
Definition getitem (s : bytes) (i : Z) : result Z :=
  match index_of_int s i with
  | Some k => match s !! k with
              | Some x => Ok x
              | None => Raise IndexError
              end
  | None => Raise IndexError
  end.

(** [s[i] = v] on a bytearray.  The values the code stores are copies or
    XORs of bytes, hence bytes. *)
Definition setitem (s : bytes) (i : Z) (v : Z) : result bytes :=
  match index_of_int s i with
  | Some k => Ok (<[k := v]> s)
  | None => Raise IndexError
  end.

(** [s[-1]]. *)
Definition last_byte_of (s : bytes) : result Z := getitem s (-1).

(** [s[0:-p]] for [p >= 0]: the stop [-p] counts from the end when [p] is
    positive and clamps at the start; [-0] is [0], the empty slice. *)
Definition slice_to_neg (s : bytes) (p : Z) : bytes :=
  if p =? 0 then [] else take (length s - Z.to_nat p)%nat s.

(** [bytearray(range(256))]. *)
Definition range256 : bytes := Z.of_nat <$> seq 0 256.

(** ** The audio stream cipher (lines 172-184) *)

(** [key_box[(key_box[j] + key_box[(key_box[j] + j) & 0xff]) & 0xff]]
    with [j = i & 0xff]. *)
Definition mask (key_box : bytes) (i : Z) : result Z :=
  let j := Z.land i 255 in
  a ← getitem key_box j;
  b ← getitem key_box (Z.land (a + j) 255);
  getitem key_box (Z.land (a + b) 255).

(** One iteration of [for i in range(1, chunk_length + 1)]. *)
Definition decode_step (key_box : bytes) (i : Z) (chunk : bytes) : result bytes :=
  m ← mask key_box i;
  c ← getitem chunk (i - 1);
  setitem chunk (i - 1) (Z.lxor c m).

Definition decode_chunk (key_box chunk : bytes) : result bytes :=
  for_range 1 (length chunk) (decode_step key_box) chunk.

(** A file object opened for reading: its content and its cursor. *)
Record file : Type := File { data : bytes; pos : nat }.

(** [f.read(n)]: at most [n] bytes from the cursor, fewer at end of file,
    never an error. *)
Definition read (n : nat) (f : file) : bytes * file :=
  let got := take n (drop (pos f) (data f)) in
  (got, File (data f) (pos f + length got)%nat).

(** [f.seek(n, 1)]. *)
Definition seek_cur (n : nat) (f : file) : file := File (data f) (pos f + n)%nat.

Definition remaining (f : file) : nat := (length (data f) - pos f)%nat.

(** The [while True] loop of lines 174-182, reading [size] bytes at a
    time; [m] is the [BytesIO] accumulator. *)
Fixpoint decode_loop (fuel : nat) (size : nat) (key_box : bytes)
    (f : file) (m : bytes) : result (bytes * file) :=
  match fuel with
  | O => Ok (m, f)
  | S fuel' =>
      let '(chunk, f') := read size f in
      match chunk with
      | [] => Ok (m, f')
      | _ => chunk' ← decode_chunk key_box chunk;
             decode_loop fuel' size key_box f' (m ++ chunk')
      end
  end.

(** The loop leaves after at most one read per remaining byte and one more
    for the empty read. *)
Definition decode_stream (size : nat) (key_box : bytes) (f : file)
    : result (bytes * file) :=
  decode_loop (S (remaining f)) size key_box f [].

Definition CHUNK : nat := Z.to_nat 0x8000.

(** ** Key-box derivation (lines 137-150) *)

Record ksa : Type := Ksa { key_box_of : bytes; last_byte : Z; key_offset : Z }.

Definition ksa_step (key_data : bytes) (i : Z) (st : ksa) : result ksa :=
  let key_length := Z.of_nat (length key_data) in
  swap ← getitem (key_box_of st) i;
  k ← getitem key_data (key_offset st);
  let c := Z.land (swap + last_byte st + k) 255 in
  let key_offset' := key_offset st + 1 in
  let key_offset'' := if key_offset' >=? key_length then 0 else key_offset' in
  y ← getitem (key_box_of st) c;
  box1 ← setitem (key_box_of st) i y;
  box2 ← setitem box1 c swap;
  Ok (Ksa box2 c key_offset'').

Definition derive_key_box (key_data : bytes) : result bytes :=
  st ← for_range 0 256 (ksa_step key_data) (Ksa range256 0 0);
  Ok (key_box_of st).

(** ** AES-128, inverse cipher (FIPS-197)

    What [Cipher(algorithms.AES(key), modes.ECB()).decryptor()] of the
    [cryptography] package computes on whole blocks. *)

Module AES.

(** Multiplication by [x] in GF(2^8) modulo [x^8 + x^4 + x^3 + x + 1]. *)
Definition xtime (b : Z) : Z :=
  let s := Z.land (Z.shiftl b 1) 255 in
  if Z.testbit b 7 then Z.lxor s 0x1b else s.

Fixpoint gmul_bits (n : nat) (a b : Z) : Z :=
  match n with
  | O => 0
  | S n' => Z.lxor (if Z.testbit b 0 then a else 0)
                   (gmul_bits n' (xtime a) (Z.shiftr b 1))
  end.

Definition gmul (a b : Z) : Z := gmul_bits 8 a b.

Fixpoint gpow (n : nat) (a : Z) : Z :=
  match n with
  | O => 1
  | S n' => gmul a (gpow n' a)
  end.

(** The multiplicative inverse, with [0] mapped to [0]. *)
Definition ginv (a : Z) : Z := gpow 254 a.

Definition rotl8 (b : Z) (k : Z) : Z :=
  Z.land (Z.lor (Z.shiftl b k) (Z.shiftr b (8 - k))) 255.

Definition sbox_byte (a : Z) : Z :=
  let b := ginv a in
  Z.lxor (Z.lxor (Z.lxor (Z.lxor (Z.lxor b (rotl8 b 1)) (rotl8 b 2)) (rotl8 b 3)) (rotl8 b 4)) 0x63.

Definition sbox : list Z :=
  Eval vm_compute in (sbox_byte ∘ Z.of_nat) <$> seq 0 256.

Definition index_of (y : Z) (l : list Z) : Z :=
  match list_find (fun x => x = y) l with
  | Some (i, _) => Z.of_nat i
  | None => 0
  end.

Definition inv_sbox : list Z :=
  Eval vm_compute in (fun y => index_of (Z.of_nat y) sbox) <$> seq 0 256.

Definition sub_byte (b : Z) : Z := nth (Z.to_nat b) sbox 0.
Definition inv_sub_byte (b : Z) : Z := nth (Z.to_nat b) inv_sbox 0.

Definition xor_bytes (a b : list Z) : list Z := zip_with Z.lxor a b.

(** Key expansion: the 44 words of an AES-128 key schedule. *)
Definition rcon : list Z := [1; 2; 4; 8; 16; 32; 64; 128; 0x1b; 0x36].

Definition rot_word (w : list Z) : list Z :=
  match w with
  | a :: rest => rest ++ [a]
  | [] => []
  end.

Definition sub_word (w : list Z) : list Z := sub_byte <$> w.

Fixpoint expand (n : nat) (i : nat) (ws : list (list Z)) : list (list Z) :=
  match n with
  | O => ws
  | S n' =>
      let prev := nth (i - 1) ws [] in
      let back := nth (i - 4) ws [] in
      let temp :=
        if (i mod 4 =? 0)%nat
        then xor_bytes (sub_word (rot_word prev)) [nth (i / 4 - 1) rcon 0; 0; 0; 0]
        else prev in
      expand n' (S i) (ws ++ [xor_bytes back temp])
  end.

Fixpoint words (k : list Z) (n : nat) : list (list Z) :=
  match n with
  | O => []
  | S n' => take 4 k :: words (drop 4 k) n'
  end.

Definition key_expansion (key : list Z) : list (list Z) :=
  expand 40 4 (words key 4).

(** Round key [r]: words [4r .. 4r+3]. *)
Definition round_key (w : list (list Z)) (r : nat) : list Z :=
  concat (take 4 (drop (4 * r) w)).

Definition add_round_key (w : list (list Z)) (r : nat) (st : list Z) : list Z :=
  xor_bytes st (round_key w r).

(** The state is the block in column order: byte [r + 4c] is row [r],
    column [c]. *)
Definition permute (idx : list nat) (st : list Z) : list Z :=
  (fun i => nth i st 0) <$> idx.

Definition inv_shift_rows : list Z -> list Z :=
  permute [0; 13; 10; 7; 4; 1; 14; 11; 8; 5; 2; 15; 12; 9; 6; 3]%nat.

Definition inv_sub_bytes (st : list Z) : list Z := inv_sub_byte <$> st.

Definition xor4 (a b c d : Z) : Z := Z.lxor (Z.lxor a b) (Z.lxor c d).

Definition inv_mix_column (col : list Z) : list Z :=
  match col with
  | [a0; a1; a2; a3] =>
      [ xor4 (gmul a0 14) (gmul a1 11) (gmul a2 13) (gmul a3 9);
        xor4 (gmul a0 9) (gmul a1 14) (gmul a2 11) (gmul a3 13);
        xor4 (gmul a0 13) (gmul a1 9) (gmul a2 14) (gmul a3 11);
        xor4 (gmul a0 11) (gmul a1 13) (gmul a2 9) (gmul a3 14) ]
  | _ => col
  end.

Definition inv_mix_columns (st : list Z) : list Z :=
  concat (inv_mix_column <$> words st 4).

(** Rounds [r, r-1, .., 1] of the inverse cipher. *)
Fixpoint inv_rounds (w : list (list Z)) (r : nat) (st : list Z) : list Z :=
  match r with
  | O => st
  | S r' =>
      inv_rounds w r'
        (inv_mix_columns (add_round_key w r (inv_sub_bytes (inv_shift_rows st))))
  end.

Definition inv_cipher (w : list (list Z)) (block : list Z) : list Z :=
  let st := add_round_key w 10 block in
  let st := inv_rounds w 9 st in
  add_round_key w 0 (inv_sub_bytes (inv_shift_rows st)).

(** The blocks of a buffer whose length is a multiple of 16. *)
Fixpoint blocks (n : nat) (s : list Z) : list (list Z) :=
  match n with
  | O => []
  | S n' => take 16 s :: blocks n' (drop 16 s)
  end.

Definition ecb_decrypt_blocks (key s : list Z) : list Z :=
  let w := key_expansion key in
  concat (inv_cipher w <$> blocks (length s / 16) s).

End AES.

(** [cryptor.update(s) + cryptor.finalize()]: the decrypted blocks, and
    [ValueError] from [finalize] when the data is not a whole number of
    blocks. *)
Definition aes_ecb_decrypt (key s : bytes) : result bytes :=
  if (length s mod 16 =? 0)%nat then Ok (AES.ecb_decrypt_blocks key s)
  else Raise ValueError.

(** ** Reading the container (lines 117-169) *)

(** [binascii.a2b_hex('687A4852416D736F356B496E62617857')]. *)
Definition core_key : bytes :=
  [0x68; 0x7A; 0x48; 0x52; 0x41; 0x6D; 0x73; 0x6F;
   0x35; 0x6B; 0x49; 0x6E; 0x62; 0x61; 0x78; 0x57].

(** [binascii.a2b_hex('2331346C6A6B5F215C5D2630553C2728')]. *)
Definition meta_key : bytes :=
  [0x23; 0x31; 0x34; 0x6C; 0x6A; 0x6B; 0x5F; 0x21;
   0x5C; 0x5D; 0x26; 0x30; 0x55; 0x3C; 0x27; 0x28].

(** The header whose hex is [4354454e4644414d], ASCII [CTENFDAM]. *)
Definition magic : bytes := [0x43; 0x54; 0x45; 0x4e; 0x46; 0x44; 0x41; 0x4d].

(** [unpad = lambda s: s[0:-s[-1]]]. *)
Definition unpad (s : bytes) : result bytes :=
  p ← last_byte_of s; Ok (slice_to_neg s p).

(** [struct.unpack('<I', b)[0]]: exactly four bytes, little-endian. *)
Definition unpack_u32_le (b : bytes) : result Z :=
  match b with
  | [b0; b1; b2; b3] =>
      Ok (Z.lor (Z.lor b0 (Z.shiftl b1 8)) (Z.lor (Z.shiftl b2 16) (Z.shiftl b3 24)))
  | _ => Raise StructError
  end.

(** [for i in range(0, len(a)): a[i] ^= k]. *)
Definition xor_all (k : Z) (a : bytes) : bytes := (fun x => Z.lxor x k) <$> a.

(** Lines 129-136: from the key block as read to the raw key. *)
Definition unwrap_key (key_data : bytes) : result bytes :=
  let key_data := xor_all 0x64 key_data in
  dec ← aes_ecb_decrypt core_key key_data;
  s ← unpad dec;
  Ok (drop 17 s).

(** Lines 126-150: the key length, the key block, the raw key and its key
    box. *)
Definition read_key_box (f : file) : result (bytes * file) :=
  let '(key_length, f) := read 4 f in
  key_length ← unpack_u32_le key_length;
  let '(key_data, f) := read (Z.to_nat key_length) f in
  key_data ← unwrap_key key_data;
  key_box ← derive_key_box key_data;
  Ok (key_box, f).


(** ** The metadata block: base64, UTF-8 and JSON

    [base64.b64decode], [bytes.decode('utf-8')] and [json.loads] as CPython
    implements them; a [str] is the list of its code points. *)

Definition in_range (lo hi c : Z) : bool := (lo <=? c) && (c <=? hi).

(** The base64 alphabet [A-Za-z0-9+/]. *)
Definition b64_value (c : Z) : option Z :=
  if in_range 65 90 c then Some (c - 65)
  else if in_range 97 122 c then Some (c - 71)
  else if in_range 48 57 c then Some (c + 4)
  else if c =? 43 then Some 62
  else if c =? 47 then Some 63
  else None.

(** [binascii.a2b_base64] in its default, non-strict mode: characters
    outside the alphabet are skipped, a complete pad sequence ends the
    input, and a dangling quad is an error. *)
Fixpoint a2b_base64 (s : bytes) (quad_pos leftchar pads : Z) (out : bytes)
    : result bytes :=
  match s with
  | [] => if quad_pos =? 0 then Ok out else Raise BinasciiError
  | this_ch :: s' =>
      if this_ch =? 61 then
        if quad_pos >=? 2 then
          if quad_pos + (pads + 1) >=? 4 then Ok out
          else a2b_base64 s' quad_pos leftchar (pads + 1) out
        else a2b_base64 s' quad_pos leftchar pads out
      else
        match b64_value this_ch with
        | None => a2b_base64 s' quad_pos leftchar pads out
        | Some v =>
            if quad_pos =? 0 then a2b_base64 s' 1 v 0 out
            else if quad_pos =? 1 then
              a2b_base64 s' 2 (Z.land v 15) 0
                (out ++ [Z.lor (Z.shiftl leftchar 2) (Z.shiftr v 4)])
            else if quad_pos =? 2 then
              a2b_base64 s' 3 (Z.land v 3) 0
                (out ++ [Z.lor (Z.shiftl leftchar 4) (Z.shiftr v 2)])
            else
              a2b_base64 s' 0 0 0 (out ++ [Z.lor (Z.shiftl leftchar 6) v])
        end
  end.

Definition b64decode (s : bytes) : result bytes := a2b_base64 s 0 0 0 [].

Definition is_cont (b : Z) : bool := in_range 0x80 0xBF b.

Definition cont_bits (b : Z) : Z := Z.land b 0x3F.

(** Strict UTF-8 decoding: shortest forms only, no surrogates, nothing
    above U+10FFFF. *)
Fixpoint utf8_decode (s : bytes) : result (list Z) :=
  match s with
  | [] => Ok []
  | b0 :: s1 =>
      if b0 <? 0x80 then cons b0 <$> utf8_decode s1
      else if in_range 0xC2 0xDF b0 then
        match s1 with
        | b1 :: s2 =>
            if is_cont b1
            then cons (Z.lor (Z.shiftl (Z.land b0 0x1F) 6) (cont_bits b1)) <$> utf8_decode s2
            else Raise UnicodeDecodeError
        | _ => Raise UnicodeDecodeError
        end
      else if in_range 0xE0 0xEF b0 then
        match s1 with
        | b1 :: b2 :: s3 =>
            if in_range (if b0 =? 0xE0 then 0xA0 else 0x80)
                        (if b0 =? 0xED then 0x9F else 0xBF) b1 && is_cont b2
            then cons (Z.lor (Z.shiftl (Z.land b0 0x0F) 12)
                         (Z.lor (Z.shiftl (cont_bits b1) 6) (cont_bits b2)))
                   <$> utf8_decode s3
            else Raise UnicodeDecodeError
        | _ => Raise UnicodeDecodeError
        end
      else if in_range 0xF0 0xF4 b0 then
        match s1 with
        | b1 :: b2 :: b3 :: s4 =>
            if in_range (if b0 =? 0xF0 then 0x90 else 0x80)
                        (if b0 =? 0xF4 then 0x8F else 0xBF) b1
               && is_cont b2 && is_cont b3
            then cons (Z.lor (Z.shiftl (Z.land b0 0x07) 18)
                         (Z.lor (Z.shiftl (cont_bits b1) 12)
                            (Z.lor (Z.shiftl (cont_bits b2) 6) (cont_bits b3))))
                   <$> utf8_decode s4
            else Raise UnicodeDecodeError
        | _ => Raise UnicodeDecodeError
        end
      else Raise UnicodeDecodeError
  end.

(** The values [json.loads] builds.  A number keeps its lexeme; [NaN],
    [Infinity] and [-Infinity] are floats; an object keeps its members in
    source order. *)
Inductive json : Type :=
  | JNull
  | JBool (b : bool)
  | JInt (lexeme : list Z)
  | JFloat (lexeme : list Z)
  | JStr (s : list Z)
  | JArr (items : list json)
  | JObj (members : list (list Z * json)).

(** The code points of an ASCII literal. *)
Fixpoint codes (s : string) : list Z :=
  match s with
  | EmptyString => []
  | String a s' => Z.of_N (Ascii.N_of_ascii a) :: codes s'
  end.

Definition is_ws (c : Z) : bool :=
  (c =? 32) || (c =? 9) || (c =? 10) || (c =? 13).

Definition is_digit (c : Z) : bool := in_range 48 57 c.

Fixpoint skip_ws (s : list Z) : list Z :=
  match s with
  | c :: s' => if is_ws c then skip_ws s' else s
  | [] => []
  end.

Fixpoint span_digits (s : list Z) : list Z * list Z :=
  match s with
  | c :: s' =>
      if is_digit c then let '(ds, rest) := span_digits s' in (c :: ds, rest)
      else ([], s)
  | [] => ([], [])
  end.

Definition starts_with (lit : string) (s : list Z) : bool :=
  bool_decide (take (length (codes lit)) s = codes lit).

Definition hex_digit (c : Z) : option Z :=
  if is_digit c then Some (c - 48)
  else if in_range 97 102 c then Some (c - 87)
  else if in_range 65 70 c then Some (c - 55)
  else None.

Definition hex4 (h1 h2 h3 h4 : Z) : option Z :=
  a ← hex_digit h1; b ← hex_digit h2; c ← hex_digit h3; d ← hex_digit h4;
  Some (Z.lor (Z.shiftl a 12) (Z.lor (Z.shiftl b 8) (Z.lor (Z.shiftl c 4) d))).

(** The character after a backslash: quote, backslash, slash, and
    [b f n r t] for the control characters 8, 12, 10, 13, 9. *)
Definition escape_char (c : Z) : option Z :=
  if c =? 34 then Some 34
  else if c =? 92 then Some 92
  else if c =? 47 then Some 47
  else if c =? 98 then Some 8
  else if c =? 102 then Some 12
  else if c =? 110 then Some 10
  else if c =? 114 then Some 13
  else if c =? 116 then Some 9
  else None.

(** [scanstring] in strict mode, from just after the opening quote: the
    string and the input after its closing quote. *)
Fixpoint scanstring (s : list Z) (acc : list Z) : result (list Z * list Z) :=
  match s with
  | [] => Raise JSONDecodeError
  | c :: s1 =>
      if c =? 34 then Ok (acc, s1)
      else if c =? 92 then
        match s1 with
        | [] => Raise JSONDecodeError
        | e :: s2 =>
            if e =? 117 then
              match s2 with
              | h1 :: h2 :: h3 :: h4 :: s3 =>
                  match hex4 h1 h2 h3 h4 with
                  | None => Raise JSONDecodeError
                  | Some c1 =>
                      match s3 with
                      | b :: u :: g1 :: g2 :: g3 :: g4 :: s4 =>
                          if in_range 0xD800 0xDBFF c1 && (b =? 92) && (u =? 117) then
                            match hex4 g1 g2 g3 g4 with
                            | None => Raise JSONDecodeError
                            | Some c2 =>
                                if in_range 0xDC00 0xDFFF c2
                                then scanstring s4
                                       (acc ++ [0x10000 + Z.lor (Z.shiftl (Z.land c1 0x3FF) 10)
                                                                (Z.land c2 0x3FF)])
                                else scanstring s3 (acc ++ [c1])
                            end
                          else scanstring s3 (acc ++ [c1])
                      | _ => scanstring s3 (acc ++ [c1])
                      end
                  end
              | _ => Raise JSONDecodeError
              end
            else
              match escape_char e with
              | Some c' => scanstring s2 (acc ++ [c'])
              | None => Raise JSONDecodeError
              end
        end
      else if c <=? 0x1f then Raise JSONDecodeError
      else scanstring s1 (acc ++ [c])
  end.

(** The number at the head of the input: an optional minus sign, then
    [0] or a digit [1-9] and more digits, then an optional fraction (a dot
    and digits) and an optional exponent ([e] or [E], a sign, digits). *)
Definition match_number (s : list Z) : result (json * list Z) :=
  let '(sign, s1) := match s with
                     | c :: s' => if c =? 45 then ([c], s') else ([], s)
                     | [] => ([], [])
                     end in
  match s1 with
  | [] => Raise JSONDecodeError
  | c :: s2 =>
      if in_range 48 57 c then
        let '(int_digits, s3) := if c =? 48 then ([], s2) else span_digits s2 in
        let integer := sign ++ c :: int_digits in
        let '(frac, s4) :=
          match s3 with
          | dot :: d :: s3' =>
              if (dot =? 46) && is_digit d
              then let '(ds, rest) := span_digits s3' in (dot :: d :: ds, rest)
              else ([], s3)
          | _ => ([], s3)
          end in
        let '(exp, s5) :=
          match s4 with
          | e :: s4' =>
              if (e =? 101) || (e =? 69) then
                let '(esign, s4'') :=
                  match s4' with
                  | g :: t => if (g =? 45) || (g =? 43) then ([g], t) else ([], s4')
                  | [] => ([], [])
                  end in
                let '(ds, rest) := span_digits s4'' in
                match ds with
                | [] => ([], s4)
                | _ => (e :: esign ++ ds, rest)
                end
              else ([], s4)
          | [] => ([], s4)
          end in
        match frac, exp with
        | [], [] => Ok (JInt integer, s5)
        | _, _ => Ok (JFloat (integer ++ frac ++ exp), s5)
        end
      else Raise JSONDecodeError
  end.

(** [scan_once], with the loops of the object and array parsers.  Every
    recursive call comes after a character has been consumed, so the fuel
    [json_loads] gives, one more than the length of the input, is not used
    up; the interpreter's recursion limit is not modelled. *)
Fixpoint scan_once (fuel : nat) (s : list Z) : result (json * list Z) :=
  match fuel with
  | O => Raise JSONDecodeError
  | S fuel' =>
      match s with
      | [] => Raise JSONDecodeError
      | c :: s1 =>
          if c =? 34 then '(str, rest) ← scanstring s1 []; Ok (JStr str, rest)
          else if c =? 123 then
            match skip_ws s1 with
            | c' :: s2 => if c' =? 125 then Ok (JObj [], s2)
                          else parse_members fuel' (c' :: s2) []
            | [] => Raise JSONDecodeError
            end
          else if c =? 91 then
            match skip_ws s1 with
            | c' :: s2 => if c' =? 93 then Ok (JArr [], s2)
                          else parse_items fuel' (c' :: s2) []
            | [] => Raise JSONDecodeError
            end
          else if starts_with "null" s then Ok (JNull, drop 4 s)
          else if starts_with "true" s then Ok (JBool true, drop 4 s)
          else if starts_with "false" s then Ok (JBool false, drop 5 s)
          else if starts_with "NaN" s then Ok (JFloat (codes "NaN"), drop 3 s)
          else if starts_with "Infinity" s then Ok (JFloat (codes "Infinity"), drop 8 s)
          else if starts_with "-Infinity" s then Ok (JFloat (codes "-Infinity"), drop 9 s)
          else match_number s
      end
  end
with parse_members (fuel : nat) (s : list Z) (acc : list (list Z * json))
    : result (json * list Z) :=
  match fuel with
  | O => Raise JSONDecodeError
  | S fuel' =>
      match s with
      | q :: s1 =>
          if q =? 34 then
            '(key, s2) ← scanstring s1 [];
            match skip_ws s2 with
            | colon :: s3 =>
                if colon =? 58 then
                  '(val, s4) ← scan_once fuel' (skip_ws s3);
                  match skip_ws s4 with
                  | d :: s5 =>
                      if d =? 125 then Ok (JObj (acc ++ [(key, val)]), s5)
                      else if d =? 44
                      then parse_members fuel' (skip_ws s5) (acc ++ [(key, val)])
                      else Raise JSONDecodeError
                  | [] => Raise JSONDecodeError
                  end
                else Raise JSONDecodeError
            | [] => Raise JSONDecodeError
            end
          else Raise JSONDecodeError
      | [] => Raise JSONDecodeError
      end
  end
with parse_items (fuel : nat) (s : list Z) (acc : list json)
    : result (json * list Z) :=
  match fuel with
  | O => Raise JSONDecodeError
  | S fuel' =>
      '(val, s1) ← scan_once fuel' s;
      match skip_ws s1 with
      | d :: s2 =>
          if d =? 93 then Ok (JArr (acc ++ [val]), s2)
          else if d =? 44 then parse_items fuel' (skip_ws s2) (acc ++ [val])
          else Raise JSONDecodeError
      | [] => Raise JSONDecodeError
      end
  end.

(** [json.loads(s)] for a [str]: no byte-order mark, one value, and only
    white space after it. *)
Definition json_loads (s : list Z) : result json :=
  match s with
  | 0xFEFF :: _ => Raise JSONDecodeError
  | _ =>
      '(obj, rest) ← scan_once (S (length s)) (skip_ws s);
      match skip_ws rest with
      | [] => Ok obj
      | _ => Raise JSONDecodeError
      end
  end.

(** [obj[key]] for a [str] key: the last member of that name in a dict,
    [KeyError] without one, [TypeError] on anything that is not a dict. *)
Definition json_getitem (obj : json) (key : list Z) : result json :=
  match obj with
  | JObj members =>
      match list_find (fun kv => kv.1 = key) (reverse members) with
      | Some (_, (_, v)) => Ok v
      | None => Raise KeyError
      end
  | _ => Raise TypeError
  end.

(** Lines 152-162: the metadata length, the metadata block and its JSON. *)
Definition read_meta (f : file) : result (json * file) :=
  let '(meta_length, f) := read 4 f in
  meta_length ← unpack_u32_le meta_length;
  let '(meta_data, f) := read (Z.to_nat meta_length) f in
  let meta_data := xor_all 0x63 meta_data in
  meta_data ← b64decode (drop 22 meta_data);
  dec ← aes_ecb_decrypt meta_key meta_data;
  raw ← unpad dec;
  text ← utf8_decode raw;
  meta_data ← json_loads (drop 6 text);
  Ok (meta_data, f).

(** Lines 164-169: the checksum, the gap, the image size and the image. *)
Definition read_cover (f : file) : result (bytes * file) :=
  let '(crc32, f) := read 4 f in
  _ ← unpack_u32_le crc32;
  let f := seek_cur 5 f in
  let '(image_size, f) := read 4 f in
  image_size ← unpack_u32_le image_size;
  let '(image_data, f) := read (Z.to_nat image_size) f in
  Ok (image_data, f).


(** ** Paths, the file system, the log and the host

    A path is a folder and a file name in it: [os.path.dirname] and
    [os.path.basename] are the projections and [os.path.join(folder, name)]
    is the pair.  The file system maps the paths of regular files to their
    contents; opening an existing file for reading, writing a file and the
    calls on pipes succeed. *)

Abbreviation path := (list Z * list Z)%type.

(** The records given to [log]. *)
Inductive log_entry : Type :=
  | InfoBanner (line : nat)
  | InfoSingleWorker
  | InfoSkippingOld (filepath : path)
  | WarnSkippingExisting (filepath fname : path)
  | InfoConverting (filepath : path)
  | InfoSaved (target_filename : path)
  | WarnAborted
  | InfoAllFinished.

(** A word of the muxer's command line. *)
Inductive arg : Type :=
  | Lit (s : list Z)
  | PathArg (p : path).

(** The calls [merge_audio_with_cover] makes on pipes and on the process,
    in program order. *)
Inductive event : Type :=
  | CreateNamedPipe (pipe_name : list Z)
  | Popen (cmd : list arg)
  | ConnectNamedPipe (pipe_name : list Z)
  | WriteFile (pipe_name : list Z) (chunk : bytes)
  | CloseHandle (pipe_name : list Z)
  | Wait (exit_code : Z).

#[global] Instance arg_eq_dec : EqDecision arg.
Proof. solve_decision. Defined.
#[global] Instance event_eq_dec : EqDecision event.
Proof. solve_decision. Defined.
#[global] Instance log_entry_eq_dec : EqDecision log_entry.
Proof. solve_decision. Defined.

(** What the run takes from its host: the process id, the creation times,
    whether Ctrl-C arrives while a file is being converted, the answer of
    [find_ffmpeg] (its log record is left out), the external muxer (its exit code and the file it leaves
    at its output path), and [str()] of a JSON value that is not a string. *)
Record host : Type := Host {
  getpid : Z;
  getctime : path -> Q;
  keyboard_interrupt : path -> bool;
  find_ffmpeg : option (list Z);
  ffmpeg : list arg -> bytes -> bytes -> Z * option bytes;
  str_of : json -> list Z
}.

Record world : Type := World {
  fs : gmap path bytes;
  log : list log_entry;
  trace : list event
}.

Definition add_log (e : log_entry) (w : world) : world :=
  World (fs w) (log w ++ [e]) (trace w).

Definition write_file (p : path) (content : bytes) (w : world) : world :=
  World (<[p := content]> (fs w)) (log w) (trace w).

(** [os.path.isfile]. *)
Definition isfile (w : world) (p : path) : bool := bool_decide (is_Some (fs w !! p)).

(** A [str] or [None] used as a condition. *)
Definition truthy (s : option (list Z)) : option (list Z) :=
  match s with
  | Some [] => None
  | _ => s
  end.

(** ** The muxer bridge (lines 61-95) *)

Definition DEFAULT_CHUNK_SIZE : nat := Z.to_nat 65536.

(** [mv[i:i+DEFAULT_CHUNK_SIZE]] for [i] in
    [range(0, len(data), DEFAULT_CHUNK_SIZE)]. *)
Fixpoint pipe_chunks (fuel : nat) (data : bytes) : list bytes :=
  match fuel with
  | O => []
  | S fuel' =>
      match data with
      | [] => []
      | _ => take DEFAULT_CHUNK_SIZE data
             :: pipe_chunks fuel' (drop DEFAULT_CHUNK_SIZE data)
      end
  end.

Definition connect_and_write_pipe (pipe_fd : list Z) (data : bytes) : list event :=
  ConnectNamedPipe pipe_fd
  :: (WriteFile pipe_fd <$> pipe_chunks (length data) data)
  ++ [CloseHandle pipe_fd].

Definition named_pipe (pid : Z) (suffix : string) : list Z :=
  codes "\\.\pipe\ncm_conv_" ++ codes (pretty pid) ++ codes suffix.

Definition ffmpeg_cmd (ffmpeg_path named_pipe_img named_pipe_audio : list Z)
    (output_file : path) : list arg :=
  [Lit ffmpeg_path; Lit (codes "-v"); Lit (codes "quiet"); Lit (codes "-y");
   Lit (codes "-i"); Lit named_pipe_img; Lit (codes "-i"); Lit named_pipe_audio;
   Lit (codes "-c"); Lit (codes "copy"); Lit (codes "-map"); Lit (codes "0:0");
   Lit (codes "-disposition:v"); Lit (codes "attached_pic");
   Lit (codes "-map"); Lit (codes "1"); Lit (codes "-map_metadata"); Lit (codes "1");
   PathArg output_file].

(** [merge_audio_with_cover].  The two handles are closed by
    [connect_and_write_pipe] and are false in the [finally] clause, which
    closes nothing more. *)
Definition merge_audio_with_cover (h : host) (ffmpeg_path : list Z)
    (blob_audio blob_cover_img : bytes) (output_file : path) (w : world)
    : world * result unit :=
  let pid := getpid h in
  let named_pipe_img := named_pipe pid "_img" in
  let named_pipe_audio := named_pipe pid "_audio" in
  let cmd := ffmpeg_cmd ffmpeg_path named_pipe_img named_pipe_audio output_file in
  let '(exit_code, produced) := ffmpeg h cmd blob_cover_img blob_audio in
  let events :=
    [CreateNamedPipe named_pipe_img; CreateNamedPipe named_pipe_audio; Popen cmd]
    ++ connect_and_write_pipe named_pipe_img blob_cover_img
    ++ connect_and_write_pipe named_pipe_audio blob_audio
    ++ [Wait exit_code] in
  let fs' := match produced with
             | Some content => <[output_file := content]> (fs w)
             | None => fs w
             end in
  let w' := World fs' (log w) (trace w ++ events) in
  if exit_code =? 0 then (w', Ok tt) else (w', Raise AssertionError).

(** ** One file (lines 98-195) *)

(** [s.endswith(suffix)]. *)
Definition endswith (s suffix : list Z) : bool :=
  (length suffix <=? length s)%nat
  && bool_decide (drop (length s - length suffix)%nat s = suffix).

(** The interpolation of the format tag in the output name. *)
Definition format_str (h : host) (v : json) : list Z :=
  match v with
  | JStr s => s
  | _ => str_of h v
  end.

(** The body of [with open(filepath, 'rb') as f] up to [audio_data]:
    the output name, the cover image and the decoded audio. *)
Definition parse_container (h : host) (content : bytes)
    (target_folder filename : list Z) : result (path * bytes * bytes) :=
  let f := File content 0 in
  let '(header, f) := read 8 f in
  if bool_decide (header = magic) then
    let f := seek_cur 2 f in
    '(key_box, f) ← read_key_box f;
    '(meta_data, f) ← read_meta f;
    '(image_data, f) ← read_cover f;
    fmt ← json_getitem meta_data (codes "format");
    let target_filename := (target_folder, filename ++ codes "." ++ format_str h fmt) in
    '(audio_data, f) ← decode_stream CHUNK key_box f;
    Ok (target_filename, image_data, audio_data)
  else Raise AssertionError.

(** [creation_time < after_timestamp], asked only for a timestamp that is
    neither [None] nor [0]. *)
Definition too_old (h : host) (w : world) (filepath : path)
    (after_timestamp : option Z) : result bool :=
  match after_timestamp with
  | None => Ok false
  | Some t =>
      if t =? 0 then Ok false
      else match fs w !! filepath with
           | None => Raise FileNotFoundError
           | Some _ => Ok (negb (Qle_bool (inject_Z t) (getctime h filepath)))
           end
  end.

(** The [try] block.  An interrupt of the user is taken at its entry. *)
Definition convert (h : host) (filepath : path) (target_folder : list Z)
    (after_timestamp : option Z) (ffmpeg_path : option (list Z)) (w : world)
    : world * result (option path) :=
  if keyboard_interrupt h filepath then (w, Raise KeyboardInterrupt) else
  match too_old h w filepath after_timestamp with
  | Raise e => (w, Raise e)
  | Ok true => (add_log (InfoSkippingOld filepath) w, Ok None)
  | Ok false =>
      let filename := filepath.2 in
      if negb (endswith filename (codes ".ncm")) then (w, Ok None) else
      let filename := take (length filename - 4)%nat filename in
      match list_find (isfile w)
              ((fun ftype => (target_folder, filename ++ codes "." ++ codes ftype))
                 <$> ["mp3"; "flac"]%string) with
      | Some (_, fname) => (add_log (WarnSkippingExisting filepath fname) w, Ok None)
      | None =>
          let w := add_log (InfoConverting filepath) w in
          match fs w !! filepath with
          | None => (w, Raise FileNotFoundError)
          | Some content =>
              match parse_container h content target_folder filename with
              | Raise e => (w, Raise e)
              | Ok (target_filename, image_data, audio_data) =>
                  let '(w, r) :=
                    match truthy ffmpeg_path with
                    | Some exe =>
                        merge_audio_with_cover h exe audio_data image_data target_filename w
                    | None => (write_file target_filename audio_data w, Ok tt)
                    end in
                  match r with
                  | Raise e => (w, Raise e)
                  | Ok _ => (add_log (InfoSaved target_filename) w, Ok (Some target_filename))
                  end
              end
          end
      end
  end.

(** [dump_single_file]: the [try] block and its one handler,
    [except KeyboardInterrupt], which logs and calls [quit()]. *)
Definition dump_single_file (h : host) (filepath : path) (target_folder : list Z)
    (after_timestamp : option Z) (ffmpeg_path : option (list Z)) (w : world)
    : world * result (option path) :=
  let '(w', r) := convert h filepath target_folder after_timestamp ffmpeg_path w in
  match r with
  | Raise KeyboardInterrupt => (add_log WarnAborted w', Raise SystemExit)
  | _ => (w', r)
  end.

(** ** The batch (lines 209-234), single-worker mode *)

(** [target_folder or os.path.dirname(fp)]. *)
Definition folder_for (target_folder : option (list Z)) (fp : path) : list Z :=
  match truthy target_folder with
  | Some d => d
  | None => fp.1
  end.

(** [for fp in all_filepaths: dump_single_file(...)]: an exception leaves
    the loop. *)
Fixpoint dump_loop (h : host) (all_filepaths : list path)
    (target_folder : option (list Z)) (after_timestamp : option Z)
    (ffmpeg_path : option (list Z)) (w : world) : world * result unit :=
  match all_filepaths with
  | [] => (w, Ok tt)
  | fp :: rest =>
      let '(w', r) := dump_single_file h fp (folder_for target_folder fp)
                        after_timestamp ffmpeg_path w in
      match r with
      | Raise e => (w', Raise e)
      | Ok _ => dump_loop h rest target_folder after_timestamp ffmpeg_path w'
      end
  end.

(** The nine banner lines and the line on the mode: the state in which
    [dump] enters its loop. *)
Definition batch_start (w : world) : world :=
  add_log InfoSingleWorker (foldl (fun w line => add_log (InfoBanner line) w) w (seq 0 9)).

(** [if ffmpeg_path is None: ffmpeg_path = find_ffmpeg()]. *)
Definition batch_ffmpeg (h : host) (ffmpeg_path : option (list Z)) : option (list Z) :=
  match ffmpeg_path with
  | None => find_ffmpeg h
  | Some _ => ffmpeg_path
  end.

(** [dump] with [n_workers <= 1], on the paths already listed; the pool of
    worker processes of the other branch is not modelled. *)
Definition dump (h : host) (all_filepaths : list path)
    (target_folder : option (list Z)) (after_timestamp : option Z)
    (ffmpeg_path : option (list Z)) (w : world) : world * result unit :=
  let '(w, r) := dump_loop h all_filepaths target_folder after_timestamp
                   (batch_ffmpeg h ffmpeg_path) (batch_start w) in
  match r with
  | Raise e => (w, Raise e)
  | Ok _ => (add_log InfoAllFinished w, Ok tt)
  end.

(** ** The stream cipher in the spec's words (section 4.3) *)

(** [box[k]] of a 256-entry table. *)
Definition box_at (box : bytes) (k : Z) : Z := box !!! Z.to_nat k.

(** [mask = box[(box[j] + box[(box[j] + j) & 0xFF]) & 0xFF]], [j = i & 0xFF]. *)
Definition spec_mask (box : bytes) (i : Z) : Z :=
  let j := Z.land i 255 in
  box_at box (Z.land (box_at box j + box_at box (Z.land (box_at box j + j) 255)) 255).

(** [plaintext[i-1] = ciphertext[i-1] XOR mask] for the positions from [i] on. *)
Fixpoint spec_decode_from (box : bytes) (i : Z) (ct : bytes) : bytes :=
  match ct with
  | [] => []
  | c :: ct' => Z.lxor c (spec_mask box i) :: spec_decode_from box (i + 1) ct'
  end.

(** [sorted(table)]. *)
Definition sorted (l : bytes) : bytes := merge_sort Z.le l.

(** ** Key unwrapping in the spec's words (section 4.1, steps 1-4) *)

(** Remove the trailing padding whose count is the value of the last
    byte. *)
Definition spec_remove_padding (s : bytes) : result bytes :=
  p ← last_byte_of s; Ok (take (length s - Z.to_nat p)%nat s).

(** XOR with [0x64], AES-ECB-decrypt with the core key, remove the
    padding, discard the first 17 bytes. *)
Definition spec_raw_key (key_block : bytes) : result bytes :=
  dec ← aes_ecb_decrypt core_key (xor_all 0x64 key_block);
  s ← spec_remove_padding dec;
  Ok (drop 17 s).

(** ** Reading a trace of the muxer bridge *)

(** The event is a call on the pipe [name]. *)
Definition on_pipe (name : list Z) (e : event) : bool :=
  match e with
  | ConnectNamedPipe n | WriteFile n _ | CloseHandle n => bool_decide (n = name)
  | _ => false
  end.

(** The bytes the trace writes to the pipe [name], in order. *)
Fixpoint written (name : list Z) (tr : list event) : bytes :=
  match tr with
  | [] => []
  | WriteFile n chunk :: tr' =>
      if bool_decide (n = name) then chunk ++ written name tr' else written name tr'
  | _ :: tr' => written name tr'
  end.

(** ** Sample data *)

(** A key block of two AES blocks whose decryption is
    [neteasecloudmusic], the bytes 1..14 and a last byte 0. *)
Definition key_block_zero_pad : bytes :=
  [44; 206; 213; 235; 105; 234; 251; 20; 85; 13; 69; 191; 97; 221; 23; 29;
   212; 44; 190; 180; 239; 224; 163; 159; 191; 101; 16; 93; 65; 19; 236; 128].

(** Its decryption. *)
Definition key_plain_zero_pad : bytes :=
  codes "neteasecloudmusic" ++ [1; 2; 3; 4; 5; 6; 7; 8; 9; 10; 11; 12; 13; 14; 0].

(** A key block that decrypts to [neteasecloudmusic], the raw key
    [1, 2, 3, 4] and eleven padding bytes 11. *)
Definition key_block_1234 : bytes :=
  [44; 206; 213; 235; 105; 234; 251; 20; 85; 13; 69; 191; 97; 221; 23; 29;
   65; 233; 75; 38; 74; 185; 184; 249; 111; 200; 179; 45; 128; 0; 59; 131].

Definition key_plain_1234 : bytes :=
  codes "neteasecloudmusic" ++ [1; 2; 3; 4] ++ replicate 11 11.

(** A key block of one AES block, sixteen bytes [0x64]. *)
Definition key_block_long_pad : bytes := replicate 16 0x64.

(** The metadata block of [music:{"format":"mp3"}]: padded to two AES
    blocks, encrypted with the meta key, base64-encoded after the 22
    characters [163 key(Don't modify):], every byte XORed with [0x63]. *)
Definition sample_meta_block : bytes :=
  [82; 85; 80; 67; 8; 6; 26; 75; 39; 12; 13; 68; 23; 67; 14; 12; 7; 10; 5; 26;
   74; 89; 0; 38; 4; 23; 18; 43; 27; 20; 19; 7; 49; 40; 0; 33; 32; 49; 51; 33;
   15; 51; 8; 9; 25; 86; 84; 50; 4; 39; 14; 0; 45; 14; 36; 8; 57; 7; 86; 17;
   81; 25; 15; 86; 58; 94].

Definition sample_cover : bytes := [255; 216; 255].

Definition sample_audio : bytes := [10; 20; 30; 40; 50; 60; 70; 80; 90; 100].

(** [struct.pack('<I', n)]. *)
Definition u32_le (n : Z) : bytes :=
  [Z.land n 255; Z.land (Z.shiftr n 8) 255;
   Z.land (Z.shiftr n 16) 255; Z.land (Z.shiftr n 24) 255].

(** A container with the raw key [1, 2, 3, 4], a three-byte cover and ten
    bytes of audio; [image_size] is what its cover length field says. *)
Definition container_with (image_size : Z) : bytes :=
  magic ++ [1; 112]
  ++ u32_le 32 ++ key_block_1234
  ++ u32_le 66 ++ sample_meta_block
  ++ u32_le 0 ++ [0; 0; 0; 0; 0]
  ++ u32_le image_size ++ sample_cover ++ sample_audio.

Definition sample_container : bytes := container_with 3.

(** The same bytes with a cover length of 200, where 13 bytes follow. *)
Definition truncated_container : bytes := container_with 200.

(** A file that is not a container. *)
Definition bad_container : bytes := codes "ID3 not an NCM container".

Definition song_ncm : path := (codes "music", codes "song.ncm").
Definition bad_ncm : path := (codes "music", codes "bad.ncm").
Definition cut_ncm : path := (codes "music", codes "cut.ncm").

(** A host without a muxer and without interrupts. *)
Definition sample_host : host :=
  Host 4242 (fun _ => 0%Q) (fun _ => false) None
       (fun _ _ _ => (1, None)) (fun _ => codes "None").

(** A host whose muxer exits with 0 and leaves the cover followed by the
    audio at its output path. *)
Definition muxing_host : host :=
  Host 4242 (fun _ => 0%Q) (fun _ => false) (Some (codes "ffmpeg.exe"))
       (fun _ image audio => (0, Some (image ++ audio))) (fun _ => codes "None").

Definition sample_world : world :=
  World {[ song_ncm := sample_container;
           bad_ncm := bad_container;
           cut_ncm := truncated_container ]} [] [].

(** ** Bytes *)

(** A value a [bytes] or [bytearray] object can hold. *)
Definition is_byte (x : Z) : Prop := 0 <= x < 256.

(** ** Worlds that only grow *)

(** Every file of [w] is still a file of [w'], and the log and the trace
    of [w'] continue those of [w]. *)
Definition extends (w w' : world) : Prop :=
  (forall p, is_Some (fs w !! p) -> is_Some (fs w' !! p))
  /\ log w `prefix_of` log w'
  /\ trace w `prefix_of` trace w'.

(** ** The search for the muxer (lines 49-58) *)

(** [s.split(sep)] for a separator of one character. *)
Fixpoint split (sep : Z) (s : list Z) : list (list Z) :=
  match s with
  | [] => [[]]
  | c :: s' =>
      if c =? sep then [] :: split sep s'
      else match split sep s' with
           | piece :: pieces => (c :: piece) :: pieces
           | [] => [[c]]
           end
  end.

(** The [for path in paths] loop: the first entry that is not empty and
    has an [ffmpeg.exe]; [found] is [os.path.exists]. *)
Fixpoint first_ffmpeg (found : path -> bool) (paths : list (list Z)) : option path :=
  match paths with
  | [] => None
  | path :: rest =>
      if bool_decide (length path = 0%nat) then first_ffmpeg found rest
      else
        let full_path := (path, codes "ffmpeg.exe") in
        if found full_path then Some full_path else first_ffmpeg found rest
  end.

(** [find_ffmpeg()] from [sys.path] and [os.environ['PATH']]: the list
    [sys.path] as the call leaves it, and the result.  [paths] is
    [sys.path] itself, which [+=] extends in place; a missing [PATH] is a
    [KeyError].  The log record of a find is left out. *)
Definition find_ffmpeg_from (found : path -> bool) (sys_path : list (list Z))
    (environ_PATH : option (list Z)) : list (list Z) * result (option path) :=
  match environ_PATH with
  | None => (sys_path, Raise KeyError)
  | Some value =>
      let paths := sys_path ++ split 59 value in
      (paths, Ok (first_ffmpeg found paths))
  end.

(** * Properties *)

(** ** Indexing *)

Lemma land_255_bounds (x : Z) : 0 <= Z.land x 255 < 256.
Proof.
  change 255 with (Z.ones 8). rewrite Z.land_ones by lia.
  apply Z.mod_pos_bound. lia.
Qed.

Lemma index_of_int_nonneg (s : bytes) (i : Z) :
  0 <= i < Z.of_nat (length s) -> index_of_int s i = Some (Z.to_nat i).
Proof.
  intros Hi. unfold index_of_int.
  destruct (Z.ltb_spec i 0); [lia|].
  destruct (Z.leb_spec 0 i); [|lia].
  destruct (Z.ltb_spec i (Z.of_nat (length s))); [done|lia].
Qed.

Lemma getitem_lookup (s : bytes) (i : Z) (x : Z) :
  0 <= i -> s !! Z.to_nat i = Some x -> getitem s i = Ok x.
Proof.
  intros Hi Hx. unfold getitem.
  rewrite index_of_int_nonneg; [by rewrite Hx|].
  apply lookup_lt_Some in Hx. lia.
Qed.

Lemma getitem_box (box : bytes) (k : Z) :
  length box = 256%nat -> 0 <= k < 256 -> getitem box k = Ok (box_at box k).
Proof.
  intros Hlen Hk. apply getitem_lookup; [lia|].
  unfold box_at. apply list_lookup_lookup_total_lt. lia.
Qed.

Lemma setitem_lt (s : bytes) (i : Z) (v : Z) :
  0 <= i -> (Z.to_nat i < length s)%nat ->
  setitem s i v = Ok (<[Z.to_nat i := v]> s).
Proof.
  intros Hi Hlt. unfold setitem. rewrite index_of_int_nonneg; [done|lia].
Qed.

Lemma last_byte_of_last (s : bytes) (p : Z) :
  last s = Some p -> last_byte_of s = Ok p.
Proof.
  intros Hp. unfold last_byte_of, getitem, index_of_int.
  rewrite last_lookup in Hp. apply lookup_lt_Some in Hp as Hlt.
  destruct (Z.ltb_spec (-1) 0); [|lia].
  destruct (Z.leb_spec 0 (-1 + Z.of_nat (length s))); [|lia].
  destruct (Z.ltb_spec (-1 + Z.of_nat (length s)) (Z.of_nat (length s))); [|lia].
  cbn [andb].
  replace (Z.to_nat (-1 + Z.of_nat (length s))) with (pred (length s)) by lia.
  by rewrite Hp.
Qed.

Lemma mask_spec_mask (box : bytes) (i : Z) :
  length box = 256%nat -> mask box i = Ok (spec_mask box i).
Proof.
  intros Hlen. unfold mask, spec_mask.
  rewrite (getitem_box box (Z.land i 255)) by auto using land_255_bounds.
  cbn. rewrite getitem_box by auto using land_255_bounds.
  cbn. apply getitem_box; auto using land_255_bounds.
Qed.

(** ** One chunk *)

Lemma decode_step_app (box pre rest : bytes) (c : Z) :
  length box = 256%nat ->
  decode_step box (Z.of_nat (length pre) + 1) (pre ++ c :: rest)
  = Ok (pre ++ Z.lxor c (spec_mask box (Z.of_nat (length pre) + 1)) :: rest).
Proof.
  intros Hlen. unfold decode_step.
  rewrite mask_spec_mask by done. cbn.
  replace (Z.of_nat (length pre) + 1 - 1) with (Z.of_nat (length pre)) by lia.
  rewrite (getitem_lookup _ _ c); [|lia|].
  2:{ rewrite Nat2Z.id. by apply list_lookup_middle. }
  cbn. rewrite setitem_lt; [|lia|].
  2:{ rewrite Nat2Z.id, length_app. cbn. lia. }
  rewrite Nat2Z.id, insert_app_r_alt by lia.
  by rewrite Nat.sub_diag.
Qed.

Lemma decode_range_app (box : bytes) (rest pre : bytes) :
  length box = 256%nat ->
  for_range (Z.of_nat (length pre) + 1) (length rest) (decode_step box) (pre ++ rest)
  = Ok (pre ++ spec_decode_from box (Z.of_nat (length pre) + 1) rest).
Proof.
  intros Hlen. revert pre. induction rest as [|c rest IH]; intros pre; [done|].
  cbn [length for_range spec_decode_from].
  rewrite decode_step_app by done. cbn.
  specialize (IH (pre ++ [Z.lxor c (spec_mask box (Z.of_nat (length pre) + 1))])).
  rewrite length_app in IH. cbn [length] in IH.
  replace (Z.of_nat (length pre + 1) + 1) with (Z.of_nat (length pre) + 1 + 1) in IH by lia.
  rewrite <- !app_assoc in IH. exact IH.
Qed.

Lemma decode_chunk_closed (box chunk : bytes) :
  length box = 256%nat ->
  decode_chunk box chunk = Ok (spec_decode_from box 1 chunk).
Proof. intros Hlen. exact (decode_range_app box chunk [] Hlen). Qed.

Lemma spec_decode_from_length (box : bytes) (ct : bytes) (i : Z) :
  length (spec_decode_from box i ct) = length ct.
Proof. revert i. induction ct; intros; cbn; auto. Qed.

Lemma spec_decode_from_lookup (box : bytes) (ct : bytes) (i : Z) (k : nat) :
  spec_decode_from box i ct !! k
  = (fun c => Z.lxor c (spec_mask box (i + Z.of_nat k))) <$> ct !! k.
Proof.
  revert i k. induction ct as [|c ct IH]; intros i k; [done|].
  destruct k as [|k]; cbn.
  - by rewrite Z.add_0_r.
  - rewrite IH. by replace (i + 1 + Z.of_nat k) with (i + Z.of_nat (S k)) by lia.
Qed.

(** ** The whole payload *)

Lemma read_chunk (n : nat) (f : file) :
  read n f = (take n (drop (pos f) (data f)),
              File (data f) (pos f + length (take n (drop (pos f) (data f))))%nat).
Proof. done. Qed.

Lemma remaining_drop (f : file) : remaining f = length (drop (pos f) (data f)).
Proof. unfold remaining. by rewrite length_drop. Qed.

Lemma decode_loop_spec (box : bytes) (size : nat) (fuel : nat) :
  length box = 256%nat -> (1 <= size)%nat ->
  forall (f : file) (m : bytes), (remaining f < fuel)%nat ->
  exists out f',
    decode_loop fuel size box f m = Ok (m ++ out, f')
    /\ length out = remaining f
    /\ forall k : nat,
         out !! k = (fun c => Z.lxor c (spec_mask box (Z.of_nat (k mod size) + 1)))
                    <$> drop (pos f) (data f) !! k.
Proof.
  intros Hbox Hsize. induction fuel as [|fuel IH]; intros f m Hfuel; [lia|].
  cbn [decode_loop]. rewrite read_chunk.
  set (rest := drop (pos f) (data f)) in *.
  assert (Hrem : remaining f = length rest) by apply remaining_drop.
  destruct (take size rest) as [|c cs] eqn:Hchunk.
  - assert (rest = []) as Hnil.
    { destruct rest; [done|]. destruct size; [lia|]. discriminate. }
    exists [], (File (data f) (pos f + 0)). rewrite app_nil_r, Hrem, Hnil.
    split; [done|]. split; [done|]. intros k. by rewrite lookup_nil.
  - rewrite <- Hchunk. rewrite decode_chunk_closed by done.
    cbn [mbind result_bind].
    set (chunk := take size rest) in *.
    set (f1 := File (data f) (pos f + length chunk)).
    assert (Hlen : length chunk = Nat.min size (length rest)) by apply length_take.
    assert (Hpos : (0 < length chunk)%nat) by (rewrite Hchunk; cbn; lia).
    assert (Hrest1 : drop (pos f1) (data f1) = drop (length chunk) rest).
    { subst f1 rest. cbn. by rewrite drop_drop. }
    destruct (IH f1 (m ++ spec_decode_from box 1 chunk)) as (out & f' & Hrun & Hlo & Hout).
    { rewrite remaining_drop, Hrest1, length_drop. lia. }
    exists (spec_decode_from box 1 chunk ++ out), f'.
    rewrite Hrun, app_assoc. split; [done|]. split.
    { rewrite length_app, spec_decode_from_length, Hlo, remaining_drop, Hrest1, length_drop.
      lia. }
    intros k. destruct (decide (k < length chunk)%nat) as [Hk|Hk].
    + rewrite lookup_app_l by (by rewrite spec_decode_from_length).
      rewrite spec_decode_from_lookup. subst chunk.
      rewrite lookup_take_lt by lia.
      rewrite Nat.mod_small by lia. by rewrite Z.add_comm.
    + rewrite lookup_app_r by (rewrite spec_decode_from_length; lia).
      rewrite spec_decode_from_length, Hout, Hrest1, lookup_drop.
      replace (length chunk + (k - length chunk))%nat with k by lia.
      destruct (decide (length chunk = size)) as [Heq|Hne].
      * rewrite Heq.
        replace (k mod size)%nat with ((k - size) mod size)%nat; [done|].
        replace k with ((k - size) + 1 * size)%nat at 2 by lia.
        by rewrite Nat.Div0.mod_add.
      * by rewrite (lookup_ge_None_2 rest k) by lia.
Qed.

Lemma decode_stream_spec (box : bytes) (size : nat) (payload : bytes) :
  length box = 256%nat -> (1 <= size)%nat ->
  exists audio f',
    decode_stream size box (File payload 0) = Ok (audio, f')
    /\ length audio = length payload
    /\ forall k : nat,
         audio !! k = (fun c => Z.lxor c (spec_mask box (Z.of_nat (k mod size) + 1)))
                      <$> payload !! k.
Proof.
  intros Hbox Hsize.
  destruct (decode_loop_spec box size (S (remaining (File payload 0))) Hbox Hsize
              (File payload 0) []) as (out & f' & Hrun & Hlen & Hout); [lia|].
  exists out, f'. split; [exact Hrun|]. split.
  - rewrite Hlen. unfold remaining. cbn. lia.
  - exact Hout.
Qed.

(** C1: for a 256-entry key box, decoding a chunk yields a chunk of the
    same length whose byte at 1-based position [i] is the input byte XOR
    [box[(box[j] + box[(box[j] + j) & 0xFF]) & 0xFF]] with [j = i & 0xFF];
    over a whole payload read [0x8000] bytes at a time the position used at
    file offset [k] is [k mod 0x8000 + 1]: it restarts at 1 with every
    chunk. *)
Theorem decode_chunk_positions (key_box chunk : bytes) :
  length key_box = 256%nat ->
  (exists out,
      decode_chunk key_box chunk = Ok out
      /\ length out = length chunk
      /\ forall (i : Z) (c : Z),
           1 <= i <= Z.of_nat (length chunk) ->
           chunk !! Z.to_nat (i - 1) = Some c ->
           let j := Z.land i 255 in
           out !! Z.to_nat (i - 1)
           = Some (Z.lxor c
                     (box_at key_box
                        (Z.land (box_at key_box j
                                 + box_at key_box (Z.land (box_at key_box j + j) 255)) 255))))
  /\ (forall payload : bytes,
      exists audio f',
        decode_stream CHUNK key_box (File payload 0) = Ok (audio, f')
        /\ length audio = length payload
        /\ forall (k : nat) (c : Z),
             payload !! k = Some c ->
             audio !! k = Some (Z.lxor c (spec_mask key_box (Z.of_nat (k mod CHUNK) + 1)))).
Proof.
  intros Hbox. split.
  - exists (spec_decode_from key_box 1 chunk).
    split; [by apply decode_chunk_closed|].
    split; [apply spec_decode_from_length|].
    intros i c Hi Hc j. rewrite spec_decode_from_lookup, Hc. cbn.
    replace (1 + Z.of_nat (Z.to_nat (i - 1))) with i by lia. done.
  - intros payload.
    destruct (decode_stream_spec key_box CHUNK payload Hbox) as (audio & f' & Hrun & Hlen & Hout).
    { unfold CHUNK. lia. }
    exists audio, f'. split; [done|]. split; [done|].
    intros k c Hc. by rewrite Hout, Hc.
Qed.

Lemma decode_chunk_positions_witness :
  (exists out,
      decode_chunk range256 [7; 8; 9] = Ok out
      /\ length out = length [7; 8; 9]
      /\ forall (i : Z) (c : Z),
           1 <= i <= Z.of_nat (length [7; 8; 9]) ->
           [7; 8; 9] !! Z.to_nat (i - 1) = Some c ->
           let j := Z.land i 255 in
           out !! Z.to_nat (i - 1)
           = Some (Z.lxor c
                     (box_at range256
                        (Z.land (box_at range256 j
                                 + box_at range256 (Z.land (box_at range256 j + j) 255)) 255))))
  /\ (forall payload : bytes,
      exists audio f',
        decode_stream CHUNK range256 (File payload 0) = Ok (audio, f')
        /\ length audio = length payload
        /\ forall (k : nat) (c : Z),
             payload !! k = Some c ->
             audio !! k = Some (Z.lxor c (spec_mask range256 (Z.of_nat (k mod CHUNK) + 1)))).
Proof. apply (decode_chunk_positions range256 [7; 8; 9]). reflexivity. Defined.

(** ** Period of the keystream *)

Lemma mask_add_256 (key_box : bytes) (i : Z) : mask key_box (i + 256) = mask key_box i.
Proof.
  unfold mask. replace (Z.land (i + 256) 255) with (Z.land i 255); [done|].
  change 255 with (Z.ones 8). rewrite !Z.land_ones by lia.
  change 256 with (1 * 2 ^ 8). by rewrite Z.mod_add by lia.
Qed.

(** C10: inside one chunk the mask at 1-based position [i] is the mask at
    position [i + 256]: both positions are decoded with the same byte of
    the key box. *)
Theorem mask_period_256 (key_box chunk : bytes) (i : Z) :
  length key_box = 256%nat ->
  1 <= i -> i + 256 <= Z.of_nat (length chunk) ->
  mask key_box i = mask key_box (i + 256)
  /\ exists out m,
       decode_chunk key_box chunk = Ok out
       /\ mask key_box i = Ok m
       /\ forall c1 c2 : Z,
            chunk !! Z.to_nat (i - 1) = Some c1 ->
            chunk !! Z.to_nat (i + 256 - 1) = Some c2 ->
            out !! Z.to_nat (i - 1) = Some (Z.lxor c1 m)
            /\ out !! Z.to_nat (i + 256 - 1) = Some (Z.lxor c2 m).
Proof.
  intros Hbox Hlo Hhi. split; [by rewrite mask_add_256|].
  exists (spec_decode_from key_box 1 chunk), (spec_mask key_box i).
  split; [by apply decode_chunk_closed|].
  split; [by apply mask_spec_mask|].
  intros c1 c2 Hc1 Hc2. rewrite !spec_decode_from_lookup, Hc1, Hc2. cbn.
  replace (1 + Z.of_nat (Z.to_nat (i - 1))) with i by lia.
  replace (1 + Z.of_nat (Z.to_nat (i + 256 - 1))) with (i + 256) by lia.
  split; [done|].
  assert (spec_mask key_box (i + 256) = spec_mask key_box i) as ->; [|done].
  pose proof (mask_add_256 key_box i) as Heq.
  rewrite !mask_spec_mask in Heq by done. by injection Heq.
Qed.

Lemma mask_period_256_witness :
  mask range256 5 = mask range256 (5 + 256)
  /\ exists out m,
       decode_chunk range256 (replicate 300 9) = Ok out
       /\ mask range256 5 = Ok m
       /\ forall c1 c2 : Z,
            replicate 300 9 !! Z.to_nat (5 - 1) = Some c1 ->
            replicate 300 9 !! Z.to_nat (5 + 256 - 1) = Some c2 ->
            out !! Z.to_nat (5 - 1) = Some (Z.lxor c1 m)
            /\ out !! Z.to_nat (5 + 256 - 1) = Some (Z.lxor c2 m).
Proof.
  apply (mask_period_256 range256 (replicate 300 9) 5).
  - reflexivity.
  - lia.
  - rewrite length_replicate. lia.
Defined.

(** ** Chunk size and output *)

(** C8: with the key box derived from the raw key [1, 2, 3, 4] and a
    ten-byte ciphertext, decoding in chunks of 4 and decoding in chunks of
    32768 give different outputs: at file offset 4 the first restarts at
    position 1 and the second continues at position 5. *)
Theorem chunk_size_changes_output :
  exists (key_box ct out4 out32768 : bytes) (f4 f32768 : file) (c : Z),
    derive_key_box [1; 2; 3; 4] = Ok key_box
    /\ decode_stream 4 key_box (File ct 0) = Ok (out4, f4)
    /\ decode_stream (Z.to_nat 32768) key_box (File ct 0) = Ok (out32768, f32768)
    /\ out4 <> out32768
    /\ ct !! 4%nat = Some c
    /\ out4 !! 4%nat = Some (Z.lxor c (spec_mask key_box 1))
    /\ out32768 !! 4%nat = Some (Z.lxor c (spec_mask key_box 5)).
Proof.
  destruct (derive_key_box [1; 2; 3; 4]) as [key_box|e] eqn:Hbox;
    [|vm_compute in Hbox; discriminate].
  exists key_box, [10; 20; 30; 40; 50; 60; 70; 80; 90; 100].
  vm_compute in Hbox. injection Hbox as <-.
  do 2 eexists. exists (File [10; 20; 30; 40; 50; 60; 70; 80; 90; 100] 10).
  exists (File [10; 20; 30; 40; 50; 60; 70; 80; 90; 100] 10), 50.
  split; [done|].
  split; [vm_compute; reflexivity|].
  split; [vm_compute; reflexivity|].
  split; [discriminate|].
  split; [reflexivity|].
  split; vm_compute; reflexivity.
Qed.

(** ** The key box is a permutation *)

Lemma ksa_step_perm (key_data : bytes) (i : Z) (st : ksa) :
  length (key_box_of st) = 256%nat ->
  0 <= i < 256 ->
  0 <= key_offset st < Z.of_nat (length key_data) ->
  exists st',
    ksa_step key_data i st = Ok st'
    /\ key_box_of st' ≡ₚ key_box_of st
    /\ 0 <= key_offset st' < Z.of_nat (length key_data).
Proof.
  intros Hlen Hi Hoff. unfold ksa_step.
  rewrite (getitem_box _ i) by done. cbn.
  destruct (key_data !! Z.to_nat (key_offset st)) as [k|] eqn:Hk.
  2:{ apply lookup_ge_None in Hk. lia. }
  rewrite (getitem_lookup _ _ k) by (done || lia). cbn.
  set (swap := box_at (key_box_of st) i).
  set (c := Z.land (swap + last_byte st + k) 255).
  pose proof (land_255_bounds (swap + last_byte st + k)) as Hc. fold c in Hc.
  rewrite (getitem_box _ c) by done. cbn.
  rewrite setitem_lt by lia. cbn.
  rewrite setitem_lt by (rewrite ?length_insert; lia). cbn.
  eexists. split; [reflexivity|]. cbn. split.
  - apply Permutation_insert_swap; apply list_lookup_lookup_total_lt; lia.
  - destruct (Z.geb_spec (key_offset st + 1) (Z.of_nat (length key_data))); lia.
Qed.

Lemma ksa_range_perm (key_data : bytes) (n : nat) :
  forall (i : Z) (st : ksa),
    length (key_box_of st) = 256%nat ->
    0 <= i -> i + Z.of_nat n <= 256 ->
    0 <= key_offset st < Z.of_nat (length key_data) ->
    exists st',
      for_range i n (ksa_step key_data) st = Ok st'
      /\ key_box_of st' ≡ₚ key_box_of st.
Proof.
  induction n as [|n IH]; intros i st Hlen Hi Hn Hoff.
  - by exists st.
  - cbn [for_range].
    destruct (ksa_step_perm key_data i st) as (st1 & -> & Hperm & Hoff1); [done|lia|done|].
    cbn. destruct (IH (i + 1) st1) as (st2 & Hrun & Hperm2).
    + by rewrite Hperm.
    + lia.
    + lia.
    + done.
    + exists st2. split; [done|]. by rewrite Hperm2.
Qed.

Lemma range_sorted (a n : nat) : Sorted Z.le (Z.of_nat <$> seq a n).
Proof.
  revert a. induction n as [|n IH]; intros a; cbn.
  - constructor.
  - constructor; [apply IH|]. destruct n; constructor. cbn. lia.
Qed.

Lemma range256_sorted : Sorted Z.le range256.
Proof. apply range_sorted. Qed.

(** C2: for every non-empty raw key the derivation returns a table that is
    a permutation of 0..255: [sorted(table) == [0..255]]. *)
Theorem derive_key_box_permutation (key_data : bytes) :
  key_data <> [] ->
  exists key_box,
    derive_key_box key_data = Ok key_box
    /\ key_box ≡ₚ range256
    /\ sorted key_box = range256.
Proof.
  intros Hne. unfold derive_key_box.
  destruct (ksa_range_perm key_data 256 0 (Ksa range256 0 0)) as (st & -> & Hperm).
  - reflexivity.
  - lia.
  - lia.
  - cbn [key_offset]. destruct key_data; [done|]. cbn [length]. lia.
  - exists (key_box_of st). split; [done|]. split; [done|].
    unfold sorted. apply (Sorted_unique Z.le).
    + apply Sorted_merge_sort. intros x y. lia.
    + apply range256_sorted.
    + by rewrite merge_sort_Permutation.
Qed.

Lemma derive_key_box_permutation_witness :
  exists key_box,
    derive_key_box [1; 2; 3; 4] = Ok key_box
    /\ key_box ≡ₚ range256
    /\ sorted key_box = range256.
Proof. apply (derive_key_box_permutation [1; 2; 3; 4]). discriminate. Defined.

(** ** The AES model on the vectors of FIPS-197 *)

Example aes_fips197_appendix_c1 :
  AES.ecb_decrypt_blocks
    [0; 1; 2; 3; 4; 5; 6; 7; 8; 9; 10; 11; 12; 13; 14; 15]
    [0x69; 0xc4; 0xe0; 0xd8; 0x6a; 0x7b; 0x04; 0x30;
     0xd8; 0xcd; 0xb7; 0x80; 0x70; 0xb4; 0xc5; 0x5a]
  = [0x00; 0x11; 0x22; 0x33; 0x44; 0x55; 0x66; 0x77;
     0x88; 0x99; 0xaa; 0xbb; 0xcc; 0xdd; 0xee; 0xff].
Proof. vm_compute. reflexivity. Qed.

Example aes_fips197_appendix_b :
  AES.ecb_decrypt_blocks
    [0x2b; 0x7e; 0x15; 0x16; 0x28; 0xae; 0xd2; 0xa6;
     0xab; 0xf7; 0x15; 0x88; 0x09; 0xcf; 0x4f; 0x3c]
    [0x39; 0x25; 0x84; 0x1d; 0x02; 0xdc; 0x09; 0xfb;
     0xdc; 0x11; 0x85; 0x97; 0x19; 0x6a; 0x0b; 0x32]
  = [0x32; 0x43; 0xf6; 0xa8; 0x88; 0x5a; 0x30; 0x8d;
     0x31; 0x31; 0x98; 0xa2; 0xe0; 0x37; 0x07; 0x34].
Proof. vm_compute. reflexivity. Qed.

Example aes_sbox_head : take 8 AES.sbox = [0x63; 0x7c; 0x77; 0x7b; 0xf2; 0x6b; 0x6f; 0xc5].
Proof. reflexivity. Qed.

(** ** Key unwrapping *)

Lemma unwrap_key_unfold (key_block dec : bytes) (p : Z) :
  aes_ecb_decrypt core_key (xor_all 0x64 key_block) = Ok dec ->
  last dec = Some p ->
  unwrap_key key_block = Ok (drop 17 (slice_to_neg dec p)).
Proof.
  intros Hdec Hp. unfold unwrap_key, unpad.
  rewrite Hdec. cbn [mbind result_bind]. by rewrite (last_byte_of_last _ _ Hp).
Qed.

Lemma spec_raw_key_unfold (key_block dec : bytes) (p : Z) :
  aes_ecb_decrypt core_key (xor_all 0x64 key_block) = Ok dec ->
  last dec = Some p ->
  spec_raw_key key_block = Ok (drop 17 (take (length dec - Z.to_nat p)%nat dec)).
Proof.
  intros Hdec Hp. unfold spec_raw_key, spec_remove_padding.
  rewrite Hdec. cbn [mbind result_bind]. by rewrite (last_byte_of_last _ _ Hp).
Qed.

(** C3, as stated, fails: on a key block whose last decrypted byte is 0
    the code's raw key is empty, where removing a padding of count 0 and
    discarding 17 bytes leaves the 15 bytes [1, .., 14, 0]. *)
Lemma unwrap_key_zero_pad_counterexample :
  unwrap_key key_block_zero_pad = Ok []
  /\ spec_raw_key key_block_zero_pad = Ok [1; 2; 3; 4; 5; 6; 7; 8; 9; 10; 11; 12; 13; 14; 0]
  /\ unwrap_key key_block_zero_pad <> spec_raw_key key_block_zero_pad.
Proof.
  assert (unwrap_key key_block_zero_pad = Ok []) as -> by (vm_compute; reflexivity).
  assert (spec_raw_key key_block_zero_pad
          = Ok [1; 2; 3; 4; 5; 6; 7; 8; 9; 10; 11; 12; 13; 14; 0]) as ->
    by (vm_compute; reflexivity).
  repeat split; discriminate.
Qed.

(** C3, amended: for every key block that decrypts to a buffer with last
    byte [p], the raw key is the XOR with [0x64], the AES-ECB decryption
    with the core key, the removal of the [p] trailing bytes and of the
    first 17 bytes when [p] is not zero, and the empty key when [p] is
    zero. *)
Theorem unwrap_key_steps (key_block dec : bytes) (p : Z) :
  aes_ecb_decrypt core_key (xor_all 0x64 key_block) = Ok dec ->
  last dec = Some p ->
  spec_raw_key key_block = Ok (drop 17 (take (length dec - Z.to_nat p)%nat dec))
  /\ (p <> 0 -> unwrap_key key_block = spec_raw_key key_block)
  /\ (p = 0 -> unwrap_key key_block = Ok []).
Proof.
  intros Hdec Hp.
  rewrite (unwrap_key_unfold _ _ _ Hdec Hp), (spec_raw_key_unfold _ _ _ Hdec Hp).
  unfold slice_to_neg. split; [done|]. split.
  - intros Hne. destruct (Z.eqb_spec p 0); [done|done].
  - intros ->. done.
Qed.

Lemma unwrap_key_steps_witness :
  spec_raw_key key_block_1234
  = Ok (drop 17 (take (length key_plain_1234 - Z.to_nat 11)%nat key_plain_1234))
  /\ (11 <> 0 -> unwrap_key key_block_1234 = spec_raw_key key_block_1234)
  /\ (11 = 0 -> unwrap_key key_block_1234 = Ok []).
Proof.
  apply (unwrap_key_steps key_block_1234 key_plain_1234 11).
  - vm_compute. reflexivity.
  - reflexivity.
Defined.

(** C4, as stated, fails: the sixteen-byte key block of [0x64] bytes
    decrypts to a buffer whose last byte, 104, exceeds its length, and the
    unwrapping returns a value, the empty key. *)
Lemma unwrap_key_long_pad_counterexample :
  aes_ecb_decrypt core_key (xor_all 0x64 key_block_long_pad)
  = Ok [47; 130; 56; 49; 251; 149; 203; 71; 152; 225; 108; 67; 230; 33; 87; 104]
  /\ unwrap_key key_block_long_pad = Ok []
  /\ ~ exists e, unwrap_key key_block_long_pad = Raise e.
Proof.
  assert (unwrap_key key_block_long_pad = Ok []) as -> by (vm_compute; reflexivity).
  split; [vm_compute; reflexivity|]. split; [done|].
  intros [e He]. discriminate.
Qed.

(** C4, amended: for every key block whose last decrypted byte [p] is
    zero or exceeds the length of the decrypted buffer, the unwrapping
    raises nothing and returns the empty key, and the key-box derivation
    that follows it raises [IndexError]: no key box is produced. *)
Theorem unwrap_key_bad_padding (key_block dec : bytes) (p : Z) :
  aes_ecb_decrypt core_key (xor_all 0x64 key_block) = Ok dec ->
  last dec = Some p ->
  p = 0 \/ Z.of_nat (length dec) < p ->
  unwrap_key key_block = Ok []
  /\ (key_data ← unwrap_key key_block; derive_key_box key_data) = Raise IndexError.
Proof.
  intros Hdec Hp Hbad.
  assert (unwrap_key key_block = Ok []) as ->; [|done].
  rewrite (unwrap_key_unfold _ _ _ Hdec Hp). unfold slice_to_neg.
  destruct Hbad as [->|Hlong]; [done|].
  destruct (Z.eqb_spec p 0); [done|].
  replace (length dec - Z.to_nat p)%nat with 0%nat by lia. done.
Qed.

Lemma unwrap_key_bad_padding_witness :
  unwrap_key key_block_long_pad = Ok []
  /\ (key_data ← unwrap_key key_block_long_pad; derive_key_box key_data) = Raise IndexError.
Proof.
  apply (unwrap_key_bad_padding key_block_long_pad
           [47; 130; 56; 49; 251; 149; 203; 71; 152; 225; 108; 67; 230; 33; 87; 104] 104).
  - vm_compute. reflexivity.
  - reflexivity.
  - right. simpl. lia.
Defined.

(** ** The magic signature *)

Lemma parse_container_bad_magic (h : host) (content : bytes)
    (target_folder filename : list Z) :
  take 8 content <> magic ->
  parse_container h content target_folder filename = Raise AssertionError.
Proof.
  intros Hbad. unfold parse_container. rewrite read_chunk. cbn [data pos].
  rewrite drop_0. by rewrite bool_decide_eq_false_2.
Qed.

Lemma too_old_present (h : host) (w : world) (filepath : path)
    (after_timestamp : option Z) (content : bytes) :
  fs w !! filepath = Some content ->
  exists b, too_old h w filepath after_timestamp = Ok b.
Proof.
  intros Hfile. unfold too_old. destruct after_timestamp as [t|]; [|by eexists].
  destruct (t =? 0); [by eexists|]. rewrite Hfile. by eexists.
Qed.

(** C7: for every input file whose first 8 bytes differ from [CTENFDAM],
    parsing fails at the check of the header (the [AssertionError] of line
    124, the spec's CorruptMagic) and no output file is created: the file
    system is left as it was, nothing is sent to the muxer, and
    [dump_single_file] either raises that error right after logging
    [Converting], or has skipped the file, or was cancelled. *)
Theorem bad_magic_rejected (h : host) (w : world) (filepath : path)
    (target_folder : list Z) (after_timestamp : option Z)
    (ffmpeg_path : option (list Z)) (content : bytes) :
  fs w !! filepath = Some content ->
  take 8 content <> magic ->
  (forall tf name, parse_container h content tf name = Raise AssertionError)
  /\ fs (dump_single_file h filepath target_folder after_timestamp ffmpeg_path w).1 = fs w
  /\ trace (dump_single_file h filepath target_folder after_timestamp ffmpeg_path w).1 = trace w
  /\ (dump_single_file h filepath target_folder after_timestamp ffmpeg_path w
        = (add_log (InfoConverting filepath) w, Raise AssertionError)
      \/ (dump_single_file h filepath target_folder after_timestamp ffmpeg_path w).2 = Ok None
      \/ (dump_single_file h filepath target_folder after_timestamp ffmpeg_path w).2
         = Raise SystemExit).
Proof.
  intros Hfile Hbad.
  split; [intros; by apply parse_container_bad_magic|].
  unfold dump_single_file, convert.
  destruct (keyboard_interrupt h filepath); [cbn; auto|].
  destruct (too_old_present h w filepath after_timestamp content Hfile) as [b ->].
  destruct b; [cbn; auto|].
  destruct (negb (endswith filepath.2 (codes ".ncm"))); [cbn; auto|].
  destruct (list_find _ _) as [[? fname]|]; [cbn; auto|].
  cbn [fs add_log]. rewrite Hfile.
  rewrite parse_container_bad_magic by done. cbn. auto.
Qed.

Lemma bad_magic_rejected_witness :
  (forall tf name, parse_container sample_host bad_container tf name = Raise AssertionError)
  /\ fs (dump_single_file sample_host bad_ncm (codes "out") None None sample_world).1
     = fs sample_world
  /\ trace (dump_single_file sample_host bad_ncm (codes "out") None None sample_world).1
     = trace sample_world
  /\ (dump_single_file sample_host bad_ncm (codes "out") None None sample_world
        = (add_log (InfoConverting bad_ncm) sample_world, Raise AssertionError)
      \/ (dump_single_file sample_host bad_ncm (codes "out") None None sample_world).2 = Ok None
      \/ (dump_single_file sample_host bad_ncm (codes "out") None None sample_world).2
         = Raise SystemExit).
Proof.
  apply (bad_magic_rejected sample_host sample_world bad_ncm (codes "out") None None
           bad_container).
  - vm_compute. reflexivity.
  - vm_compute. discriminate.
Defined.

(** The sample container converts: the output is the audio XORed with the
    keystream of the key box of [1, 2, 3, 4]. *)
Example sample_container_converts :
  parse_container sample_host sample_container (codes "out") (codes "song")
  = Ok ((codes "out", codes "song.mp3"), sample_cover,
        [251; 163; 218; 243; 124; 18; 94; 124; 17; 174]).
Proof. vm_compute. reflexivity. Qed.

(** ** Length fields beyond the end of the file *)

Lemma read_short (n : nat) (f : file) :
  (remaining f <= n)%nat ->
  read n f = (drop (pos f) (data f), File (data f) (pos f + remaining f)).
Proof.
  intros Hn. rewrite read_chunk, remaining_drop in *.
  by rewrite take_ge by lia.
Qed.

Lemma read_exact (f : file) (got rest : bytes) :
  drop (pos f) (data f) = got ++ rest ->
  read (length got) f = (got, File (data f) (pos f + length got)).
Proof.
  intros Hsplit. rewrite read_chunk, Hsplit.
  by rewrite take_app_length.
Qed.

Lemma drop_after (f : file) (got rest : bytes) :
  drop (pos f) (data f) = got ++ rest ->
  drop (pos f + length got) (data f) = rest.
Proof.
  intros Hsplit. rewrite <- drop_drop, Hsplit.
  by rewrite drop_app_length.
Qed.

Lemma unpack_u32_le_length (b : bytes) (n : Z) :
  unpack_u32_le b = Ok n -> length b = 4%nat.
Proof. destruct b as [|? [|? [|? [|? [|? ?]]]]]; cbn; by try discriminate. Qed.

Lemma unpack_u32_le_total (b : bytes) :
  length b = 4%nat -> exists n, unpack_u32_le b = Ok n.
Proof.
  destruct b as [|? [|? [|? [|? [|? ?]]]]]; cbn; try discriminate.
  intros _. by eexists.
Qed.

Lemma decode_stream_at_end (size : nat) (key_box : bytes) (f : file) :
  remaining f = 0%nat ->
  decode_stream size key_box f = Ok ([], File (data f) (pos f + 0)).
Proof.
  intros Hend. unfold decode_stream. rewrite Hend. cbn [decode_loop].
  rewrite read_chunk.
  assert (drop (pos f) (data f) = []) as ->.
  { apply length_zero_iff_nil. by rewrite <- remaining_drop. }
  by rewrite take_nil.
Qed.

(** C6, as stated, fails: the cover length field of [truncated_container]
    says 200 where 13 bytes remain, and parsing raises nothing: the cover
    is those 13 bytes, the audio is empty and an empty output file is
    written. *)
Lemma truncated_cover_counterexample :
  unpack_u32_le (take 4 (drop 125 truncated_container)) = Ok 200
  /\ length (drop 129 truncated_container) = 13%nat
  /\ parse_container sample_host truncated_container (codes "out") (codes "cut")
     = Ok ((codes "out", codes "cut.mp3"), sample_cover ++ sample_audio, [])
  /\ (dump_single_file sample_host cut_ncm (codes "out") None None sample_world).2
     = Ok (Some (codes "out", codes "cut.mp3"))
  /\ fs (dump_single_file sample_host cut_ncm (codes "out") None None sample_world).1
       !! (codes "out", codes "cut.mp3") = Some [].
Proof. repeat split; vm_compute; reflexivity. Qed.

(** C6, amended: a length that exceeds the bytes left is no error at the
    read, which returns the bytes that are left ([read n f0], the call
    behind the key block, the metadata block and the cover image); when
    the length is the cover image's, the cover is all that remains, the
    audio payload is empty and decoding it succeeds. *)
Theorem length_beyond_end_of_file (n : nat) (f0 : file) (key_box : bytes)
    (f : file) (crc gap size rest : bytes) (image_size : Z) :
  (remaining f0 < n)%nat ->
  drop (pos f) (data f) = crc ++ gap ++ size ++ rest ->
  length crc = 4%nat -> length gap = 5%nat ->
  unpack_u32_le size = Ok image_size ->
  Z.of_nat (length rest) < image_size ->
  read n f0 = (drop (pos f0) (data f0), File (data f0) (pos f0 + remaining f0))
  /\ exists f',
       read_cover f = Ok (rest, f')
       /\ remaining f' = 0%nat
       /\ exists f'', decode_stream CHUNK key_box f' = Ok ([], f'').
Proof.
  intros Hn Hsplit Hcrc Hgap Hsize Hlong.
  split; [apply read_short; lia|].
  pose proof (unpack_u32_le_length _ _ Hsize) as Hsize4.
  destruct (unpack_u32_le_total crc Hcrc) as [c Hc].
  pose proof (read_exact f crc (gap ++ size ++ rest) Hsplit) as Hread1.
  rewrite Hcrc in Hread1.
  set (f2 := seek_cur 5 (File (data f) (pos f + 4))).
  assert (Hf2 : drop (pos f2) (data f2) = size ++ rest).
  { subst f2. cbn [seek_cur data pos]. rewrite <- !drop_drop, Hsplit.
    rewrite <- Hgap, <- Hcrc. by rewrite !drop_app_length. }
  pose proof (read_exact f2 size rest Hf2) as Hread2.
  rewrite Hsize4 in Hread2.
  set (f3 := File (data f2) (pos f2 + 4)) in *.
  assert (Hf3 : drop (pos f3) (data f3) = rest).
  { subst f3. cbn [data pos]. rewrite <- Hsize4. by apply drop_after. }
  pose proof (read_short (Z.to_nat image_size) f3) as Hread3.
  rewrite Hf3 in Hread3.
  set (f4 := File (data f3) (pos f3 + remaining f3)) in *.
  exists f4. split.
  - unfold read_cover. rewrite Hread1. cbv beta iota.
    rewrite Hc. cbn [mbind result_bind]. fold f2.
    rewrite Hread2. cbv beta iota. rewrite Hsize. cbn [mbind result_bind].
    rewrite Hread3; [done|]. rewrite remaining_drop, Hf3. lia.
  - assert (remaining f4 = 0%nat) as Hend.
    { subst f4. unfold remaining. cbn [data pos]. lia. }
    split; [exact Hend|].
    eexists. by apply decode_stream_at_end.
Qed.

Lemma length_beyond_end_of_file_witness :
  read 200 (File truncated_container 129)
  = (drop (pos (File truncated_container 129)) (data (File truncated_container 129)),
     File (data (File truncated_container 129))
          (pos (File truncated_container 129) + remaining (File truncated_container 129)))
  /\ exists f',
       read_cover (File truncated_container 116) = Ok (sample_cover ++ sample_audio, f')
       /\ remaining f' = 0%nat
       /\ exists f'', decode_stream CHUNK range256 f' = Ok ([], f'').
Proof.
  apply (length_beyond_end_of_file 200 (File truncated_container 129) range256
           (File truncated_container 116) (u32_le 0) [0; 0; 0; 0; 0] (u32_le 200)
           (sample_cover ++ sample_audio) 200).
  - vm_compute. lia.
  - vm_compute. reflexivity.
  - reflexivity.
  - reflexivity.
  - vm_compute. reflexivity.
  - vm_compute. reflexivity.
Defined.

(** ** A failing file and the rest of the batch *)

Lemma dump_loop_app (h : host) (pre rest : list path) (target_folder : option (list Z))
    (after_timestamp : option Z) (ffmpeg_path : option (list Z)) (w w1 : world) :
  dump_loop h pre target_folder after_timestamp ffmpeg_path w = (w1, Ok tt) ->
  dump_loop h (pre ++ rest) target_folder after_timestamp ffmpeg_path w
  = dump_loop h rest target_folder after_timestamp ffmpeg_path w1.
Proof.
  revert w. induction pre as [|fp pre IH]; intros w Hpre; cbn in *.
  - by injection Hpre as ->.
  - destruct (dump_single_file h fp _ _ _ w) as [w' [r|e]]; [by apply IH|discriminate].
Qed.

Lemma dump_unfold (h : host) (all_filepaths : list path) (target_folder : option (list Z))
    (after_timestamp : option Z) (ffmpeg_path : option (list Z)) (w : world) :
  dump h all_filepaths target_folder after_timestamp ffmpeg_path w
  = let '(w', r) := dump_loop h all_filepaths target_folder after_timestamp
                      (batch_ffmpeg h ffmpeg_path) (batch_start w) in
    match r with
    | Raise e => (w', Raise e)
    | Ok _ => (add_log InfoAllFinished w', Ok tt)
    end.
Proof. reflexivity. Qed.

(** C5, as stated, fails: with [bad.ncm] before [song.ncm] the batch ends
    in the [AssertionError] of the first file; the second file is never
    converted and [All finished] is not logged, while the second file
    alone is converted. *)
Lemma failing_file_stops_batch_counterexample :
  (dump sample_host [bad_ncm; song_ncm] None None None sample_world).2
  = Raise AssertionError
  /\ fs (dump sample_host [bad_ncm; song_ncm] None None None sample_world).1
       !! (codes "music", codes "song.mp3") = None
  /\ (InfoConverting song_ncm
       ∉ log (dump sample_host [bad_ncm; song_ncm] None None None sample_world).1)
  /\ (InfoAllFinished
       ∉ log (dump sample_host [bad_ncm; song_ncm] None None None sample_world).1)
  /\ (dump sample_host [song_ncm] None None None sample_world).2 = Ok tt
  /\ fs (dump sample_host [song_ncm] None None None sample_world).1
       !! (codes "music", codes "song.mp3")
     = Some [251; 163; 218; 243; 124; 18; 94; 124; 17; 174].
Proof.
  split; [vm_compute; reflexivity|].
  split; [vm_compute; reflexivity|].
  split; [apply (bool_decide_unpack _); vm_compute; exact I|].
  split; [apply (bool_decide_unpack _); vm_compute; exact I|].
  split; vm_compute; reflexivity.
Qed.

(** C5, amended: a failure in converting one file is not isolated.
    [dump_single_file] handles [KeyboardInterrupt] alone, by logging
    [Aborted] and raising [SystemExit]; whatever it raises, a file-level
    error of the [try] block or that exit, leaves the loop of the batch at
    that file: the files after it are not processed and [All finished] is
    not logged. *)
Theorem file_error_ends_batch (h : host) (pre post : list path) (fp : path)
    (target_folder : option (list Z)) (after_timestamp : option Z)
    (ffmpeg_path : option (list Z)) (w w1 w2 : world) (e : exn) :
  dump_loop h pre target_folder after_timestamp (batch_ffmpeg h ffmpeg_path) (batch_start w)
  = (w1, Ok tt) ->
  dump_single_file h fp (folder_for target_folder fp) after_timestamp
    (batch_ffmpeg h ffmpeg_path) w1 = (w2, Raise e) ->
  dump h (pre ++ fp :: post) target_folder after_timestamp ffmpeg_path w = (w2, Raise e)
  /\ (convert h fp (folder_for target_folder fp) after_timestamp
        (batch_ffmpeg h ffmpeg_path) w1 = (w2, Raise e)
      \/ e = SystemExit
         /\ exists w', convert h fp (folder_for target_folder fp) after_timestamp
                         (batch_ffmpeg h ffmpeg_path) w1 = (w', Raise KeyboardInterrupt)
                       /\ w2 = add_log WarnAborted w').
Proof.
  intros Hpre Hfile. split.
  - rewrite dump_unfold, (dump_loop_app _ _ _ _ _ _ _ _ Hpre).
    cbn [dump_loop]. by rewrite Hfile.
  - unfold dump_single_file in Hfile.
    destruct (convert h fp _ _ _ w1) as [w' [r|e']]; [discriminate|].
    destruct e'; injection Hfile as <- <-; auto.
    right. split; [done|]. by exists w'.
Qed.

Lemma file_error_ends_batch_witness :
  dump sample_host ([] ++ bad_ncm :: [song_ncm]) None None None sample_world
  = (add_log (InfoConverting bad_ncm) (batch_start sample_world), Raise AssertionError)
  /\ (convert sample_host bad_ncm (folder_for None bad_ncm) None
        (batch_ffmpeg sample_host None) (batch_start sample_world)
      = (add_log (InfoConverting bad_ncm) (batch_start sample_world), Raise AssertionError)
      \/ AssertionError = SystemExit
         /\ exists w', convert sample_host bad_ncm (folder_for None bad_ncm) None
                         (batch_ffmpeg sample_host None) (batch_start sample_world)
                       = (w', Raise KeyboardInterrupt)
                       /\ add_log (InfoConverting bad_ncm) (batch_start sample_world)
                          = add_log WarnAborted w').
Proof.
  apply (file_error_ends_batch sample_host [] [song_ncm] bad_ncm None None None
           sample_world (batch_start sample_world)).
  - reflexivity.
  - vm_compute. reflexivity.
Defined.

(** ** The muxer bridge writes one pipe after the other *)

Lemma concat_pipe_chunks (fuel : nat) (blob : bytes) :
  (length blob <= fuel)%nat -> concat (pipe_chunks fuel blob) = blob.
Proof.
  revert blob. induction fuel as [|fuel IH]; intros blob Hfuel.
  - destruct blob; [done|cbn in Hfuel; lia].
  - cbn [pipe_chunks]. destruct blob as [|b blob]; [done|].
    cbn [concat]. rewrite IH; [apply take_drop|].
    rewrite length_drop. cbn [length] in *. unfold DEFAULT_CHUNK_SIZE. lia.
Qed.

Lemma written_writes (name : list Z) (chunks : list bytes) (tr : list event) :
  written name ((WriteFile name <$> chunks) ++ tr) = concat chunks ++ written name tr.
Proof.
  induction chunks as [|c chunks IH]; [done|].
  cbn. rewrite bool_decide_eq_true_2 by done. by rewrite IH, app_assoc.
Qed.

Lemma written_connect_and_write_pipe (name : list Z) (blob : bytes) :
  written name (connect_and_write_pipe name blob) = blob.
Proof.
  unfold connect_and_write_pipe. cbn [written].
  rewrite written_writes, concat_pipe_chunks by done. cbn. apply app_nil_r.
Qed.

Lemma on_pipe_connect_and_write_pipe (name : list Z) (blob : bytes) :
  Forall (fun e => on_pipe name e = true) (connect_and_write_pipe name blob).
Proof.
  unfold connect_and_write_pipe. constructor; [by apply bool_decide_eq_true_2|].
  apply Forall_app. split.
  - apply Forall_fmap, Forall_true. intros c. by apply bool_decide_eq_true_2.
  - constructor; [by apply bool_decide_eq_true_2|constructor].
Qed.

(** C9, as stated, fails: the bridge writes the two blobs one after the
    other; the image pipe is connected, written and closed before the
    audio pipe is connected. *)
Lemma sequential_pipe_writes_counterexample :
  trace (merge_audio_with_cover muxing_host (codes "ffmpeg.exe") [1; 2] [3; 4]
           (codes "out", codes "song.mp3") sample_world).1
  = [CreateNamedPipe (named_pipe 4242 "_img");
     CreateNamedPipe (named_pipe 4242 "_audio");
     Popen (ffmpeg_cmd (codes "ffmpeg.exe") (named_pipe 4242 "_img")
              (named_pipe 4242 "_audio") (codes "out", codes "song.mp3"));
     ConnectNamedPipe (named_pipe 4242 "_img");
     WriteFile (named_pipe 4242 "_img") [3; 4];
     CloseHandle (named_pipe 4242 "_img");
     ConnectNamedPipe (named_pipe 4242 "_audio");
     WriteFile (named_pipe 4242 "_audio") [1; 2];
     CloseHandle (named_pipe 4242 "_audio");
     Wait 0].
Proof. vm_compute. reflexivity. Qed.

(** C9, amended: after launching the process the bridge writes the two
    blobs sequentially, from the one thread that runs it: every call on
    the image pipe, up to its close, comes before the first call on the
    audio pipe; each pipe receives its whole blob; the wait for the
    process is the last call, and the bridge succeeds exactly when the
    exit code is 0. *)
Theorem pipes_written_in_sequence (h : host) (ffmpeg_path : list Z)
    (blob_audio blob_cover_img : bytes) (output_file : path) (w : world) :
  let img := named_pipe (getpid h) "_img" in
  let audio := named_pipe (getpid h) "_audio" in
  let cmd := ffmpeg_cmd ffmpeg_path img audio output_file in
  let exit_code := (ffmpeg h cmd blob_cover_img blob_audio).1 in
  let run := merge_audio_with_cover h ffmpeg_path blob_audio blob_cover_img output_file w in
  exists img_calls audio_calls,
    trace run.1
    = trace w ++ [CreateNamedPipe img; CreateNamedPipe audio; Popen cmd]
      ++ img_calls ++ audio_calls ++ [Wait exit_code]
    /\ Forall (fun e => on_pipe img e = true) img_calls
    /\ last img_calls = Some (CloseHandle img)
    /\ written img img_calls = blob_cover_img
    /\ Forall (fun e => on_pipe audio e = true) audio_calls
    /\ head audio_calls = Some (ConnectNamedPipe audio)
    /\ written audio audio_calls = blob_audio
    /\ (run.2 = Ok tt <-> exit_code = 0).
Proof.
  intros img audio cmd exit_code run.
  exists (connect_and_write_pipe img blob_cover_img),
         (connect_and_write_pipe audio blob_audio).
  subst run exit_code. unfold merge_audio_with_cover.
  fold img audio. fold cmd.
  destruct (ffmpeg h cmd blob_cover_img blob_audio) as [exit_code produced].
  cbn [fst].
  split.
  { by destruct (exit_code =? 0). }
  split; [apply on_pipe_connect_and_write_pipe|].
  split; [unfold connect_and_write_pipe; by rewrite last_cons, last_snoc|].
  split; [apply written_connect_and_write_pipe|].
  split; [apply on_pipe_connect_and_write_pipe|].
  split; [done|].
  split; [apply written_connect_and_write_pipe|].
  destruct (Z.eqb_spec exit_code 0); cbn [snd]; split; intros; done.
Qed.

(** * Further properties of the code *)

(** ** The stream cipher is its own inverse *)

Lemma lxor_twice (c m : Z) : Z.lxor (Z.lxor c m) m = c.
Proof. by rewrite Z.lxor_assoc, Z.lxor_nilpotent, Z.lxor_0_r. Qed.

Lemma stream_lookup_twice (box : bytes) (size : nat) (payload audio back : bytes) :
  (forall k : nat,
      audio !! k = (fun c => Z.lxor c (spec_mask box (Z.of_nat (k mod size) + 1)))
                   <$> payload !! k) ->
  (forall k : nat,
      back !! k = (fun c => Z.lxor c (spec_mask box (Z.of_nat (k mod size) + 1)))
                  <$> audio !! k) ->
  back = payload.
Proof.
  intros Haudio Hback. apply list_eq. intros k.
  rewrite Hback, Haudio. destruct (payload !! k) as [c|]; [|done].
  cbn. by rewrite lxor_twice.
Qed.

(** X1: decoding is an involution.  With a 256-entry key box, decoding
    the decoded payload, read in chunks of the same size, gives the payload
    back: the decoder is also the encoder. *)
Theorem decode_stream_involutive (key_box payload : bytes) (size : nat) :
  length key_box = 256%nat -> (1 <= size)%nat ->
  exists audio f1 f2,
    decode_stream size key_box (File payload 0) = Ok (audio, f1)
    /\ decode_stream size key_box (File audio 0) = Ok (payload, f2).
Proof.
  intros Hbox Hsize.
  destruct (decode_stream_spec key_box size payload Hbox Hsize)
    as (audio & f1 & Hrun1 & _ & Haudio).
  destruct (decode_stream_spec key_box size audio Hbox Hsize)
    as (back & f2 & Hrun2 & _ & Hback).
  exists audio, f1, f2. split; [done|].
  by rewrite Hrun2, (stream_lookup_twice key_box size payload audio back).
Qed.

Lemma decode_stream_involutive_witness :
  exists audio f1 f2,
    decode_stream CHUNK range256 (File sample_audio 0) = Ok (audio, f1)
    /\ decode_stream CHUNK range256 (File audio 0) = Ok (sample_audio, f2).
Proof.
  apply (decode_stream_involutive range256 sample_audio CHUNK).
  - reflexivity.
  - unfold CHUNK. lia.
Defined.

(** ** Chunk sizes that are multiples of 256 *)

Lemma spec_mask_land (box : bytes) (i i' : Z) :
  Z.land i 255 = Z.land i' 255 -> spec_mask box i = spec_mask box i'.
Proof. intros Heq. unfold spec_mask. by rewrite Heq. Qed.

Lemma position_mod_256 (size k : nat) :
  (1 <= size)%nat -> (size mod 256 = 0)%nat ->
  Z.land (Z.of_nat (k mod size) + 1) 255 = Z.land (1 + Z.of_nat k) 255.
Proof.
  intros Hsize Hmul. change 255 with (Z.ones 8). rewrite !Z.land_ones by lia.
  rewrite Nat2Z.inj_mod.
  assert ((2 ^ 8 | Z.of_nat size)) as Hdiv.
  { apply Nat.Div0.mod_divides in Hmul as [q Hq].
    exists (Z.of_nat q). rewrite Hq. lia. }
  rewrite (Z.add_comm 1), <- (Zplus_mod_idemp_l (Z.of_nat k mod Z.of_nat size)).
  rewrite Z.mod_mod_divide by done.
  by rewrite Zplus_mod_idemp_l.
Qed.

(** X2: when the read size is a multiple of 256, as [0x8000] is, the
    restart of the position at every chunk cannot be seen: the payload
    read in chunks decodes to the same bytes as the payload decoded as one
    chunk. *)
Theorem chunks_of_256_multiple (key_box payload : bytes) (size : nat) :
  length key_box = 256%nat -> (1 <= size)%nat -> (size mod 256 = 0)%nat ->
  exists out f',
    decode_stream size key_box (File payload 0) = Ok (out, f')
    /\ decode_chunk key_box payload = Ok out.
Proof.
  intros Hbox Hsize Hmul.
  destruct (decode_stream_spec key_box size payload Hbox Hsize)
    as (audio & f' & Hrun & _ & Haudio).
  exists audio, f'. split; [done|].
  rewrite decode_chunk_closed by done. f_equal.
  apply list_eq. intros k.
  rewrite spec_decode_from_lookup, Haudio.
  destruct (payload !! k) as [c|]; [|done]. cbn.
  by rewrite (spec_mask_land key_box _ _ (position_mod_256 size k Hsize Hmul)).
Qed.

Lemma chunks_of_256_multiple_witness :
  exists out f',
    decode_stream CHUNK range256 (File sample_audio 0) = Ok (out, f')
    /\ decode_chunk range256 sample_audio = Ok out.
Proof.
  apply (chunks_of_256_multiple range256 sample_audio CHUNK).
  - reflexivity.
  - unfold CHUNK. lia.
  - reflexivity.
Defined.

(** ** Bytes stay bytes *)

Lemma lxor_byte (a b : Z) : is_byte a -> is_byte b -> is_byte (Z.lxor a b).
Proof.
  unfold is_byte. intros Ha Hb. split; [apply Z.lxor_nonneg; lia|].
  destruct (Z.eq_dec (Z.lxor a b) 0) as [->|Hne]; [lia|].
  assert (0 < Z.lxor a b) as Hpos.
  { assert (0 <= Z.lxor a b) by (apply Z.lxor_nonneg; lia). lia. }
  change 256 with (2 ^ 8). apply Z.log2_lt_pow2; [done|].
  pose proof (Z.log2_lxor a b ltac:(lia) ltac:(lia)) as Hlog.
  assert (Z.log2 a < 8) as Hla.
  { destruct (Z.eq_dec a 0) as [->|]; [done|]. apply Z.log2_lt_pow2; lia. }
  assert (Z.log2 b < 8) as Hlb.
  { destruct (Z.eq_dec b 0) as [->|]; [done|]. apply Z.log2_lt_pow2; lia. }
  lia.
Qed.

Lemma box_at_byte (box : bytes) (k : Z) :
  Forall is_byte box -> is_byte (box_at box k).
Proof.
  intros Hbox. unfold box_at.
  destruct (box !! Z.to_nat k) as [x|] eqn:Hx.
  - rewrite (list_lookup_total_correct _ _ _ Hx).
    by eapply Forall_lookup_1.
  - rewrite list_lookup_total_alt, Hx. cbn. unfold is_byte. lia.
Qed.

Lemma spec_decode_from_bytes (box ct : bytes) (i : Z) :
  Forall is_byte box -> Forall is_byte ct -> Forall is_byte (spec_decode_from box i ct).
Proof.
  intros Hbox Hct. revert i. induction Hct as [|c ct Hc Hct IH]; intros i; cbn.
  - constructor.
  - constructor; [|apply IH]. apply lxor_byte; [done|]. by apply box_at_byte.
Qed.

Lemma range256_bytes : Forall is_byte range256.
Proof.
  apply Forall_forall. intros x Hx. unfold range256 in Hx.
  apply list_elem_of_fmap in Hx as (n & -> & Hn).
  apply elem_of_seq in Hn. unfold is_byte. lia.
Qed.

(** X3: every value the code stores in a bytearray is a byte.  For a
    non-empty raw key the key box holds bytes only, and decoding a chunk of
    bytes with it yields bytes, so no item assignment of the key schedule
    or of the decoder can be refused. *)
Theorem decoded_bytes_are_bytes (key_data chunk : bytes) :
  key_data <> [] -> Forall is_byte chunk ->
  exists key_box out,
    derive_key_box key_data = Ok key_box
    /\ Forall is_byte key_box
    /\ decode_chunk key_box chunk = Ok out
    /\ Forall is_byte out.
Proof.
  intros Hne Hchunk. unfold derive_key_box.
  destruct (ksa_range_perm key_data 256 0 (Ksa range256 0 0)) as (st & -> & Hperm);
    [reflexivity|lia|lia| |].
  { cbn [key_offset]. destruct key_data; [done|]. cbn [length]. lia. }
  cbn in Hperm.
  assert (Forall is_byte (key_box_of st)) as Hbytes.
  { rewrite Hperm. apply range256_bytes. }
  assert (length (key_box_of st) = 256%nat) as Hlen.
  { by rewrite Hperm. }
  exists (key_box_of st), (spec_decode_from (key_box_of st) 1 chunk).
  split; [done|]. split; [done|].
  split; [by apply decode_chunk_closed|].
  by apply spec_decode_from_bytes.
Qed.

Lemma decoded_bytes_are_bytes_witness :
  exists key_box out,
    derive_key_box [1; 2; 3; 4] = Ok key_box
    /\ Forall is_byte key_box
    /\ decode_chunk key_box sample_audio = Ok out
    /\ Forall is_byte out.
Proof.
  apply (decoded_bytes_are_bytes [1; 2; 3; 4] sample_audio).
  - discriminate.
  - unfold sample_audio, is_byte. repeat constructor; lia.
Defined.

(** ** The outcomes of key unwrapping *)

Lemma inv_cipher_length (w : list (list Z)) (block : list Z) :
  length (AES.round_key w 0) = 16%nat -> length (AES.inv_cipher w block) = 16%nat.
Proof.
  intros Hkey. unfold AES.inv_cipher, AES.add_round_key at 1, AES.xor_bytes.
  rewrite length_zip_with, Hkey.
  unfold AES.inv_sub_bytes, AES.inv_shift_rows, AES.permute.
  by rewrite !length_fmap.
Qed.

Lemma concat_length_16 {A} (f : A -> list Z) (l : list A) :
  (forall x, length (f x) = 16%nat) -> length (concat (f <$> l)) = (16 * length l)%nat.
Proof.
  intros Hf. induction l as [|x l IH]; [done|].
  cbn [fmap list_fmap concat length]. rewrite length_app, Hf, IH. lia.
Qed.

Lemma blocks_length (n : nat) (s : list Z) : length (AES.blocks n s) = n.
Proof. revert s. induction n as [|n IH]; intros s; cbn; [done|]. by rewrite IH. Qed.

Lemma core_round_key_length :
  length (AES.round_key (AES.key_expansion core_key) 0) = 16%nat.
Proof. vm_compute. reflexivity. Qed.

Lemma meta_round_key_length :
  length (AES.round_key (AES.key_expansion meta_key) 0) = 16%nat.
Proof. vm_compute. reflexivity. Qed.

Lemma ecb_decrypt_blocks_length (key s : list Z) :
  length (AES.round_key (AES.key_expansion key) 0) = 16%nat ->
  length (AES.ecb_decrypt_blocks key s) = (16 * (length s / 16))%nat.
Proof.
  intros Hkey. unfold AES.ecb_decrypt_blocks.
  rewrite concat_length_16 by (intros; by apply inv_cipher_length).
  by rewrite blocks_length.
Qed.

Lemma aes_ecb_decrypt_cases (key s : bytes) :
  length (AES.round_key (AES.key_expansion key) 0) = 16%nat ->
  (length s mod 16 <> 0 /\ aes_ecb_decrypt key s = Raise ValueError)%nat
  \/ (length s mod 16 = 0)%nat
     /\ exists dec, aes_ecb_decrypt key s = Ok dec /\ length dec = length s.
Proof.
  intros Hkey. pose proof (ecb_decrypt_blocks_length key s Hkey) as Hlen. clear Hkey.
  unfold aes_ecb_decrypt.
  destruct (Nat.eqb_spec (length s mod 16) 0) as [Hmod|Hmod].
  - right. split; [exact Hmod|]. eexists. split; [reflexivity|].
    rewrite Hlen. pose proof (Nat.div_mod_eq (length s) 16). lia.
  - left. split; [exact Hmod|reflexivity].
Qed.

Lemma last_byte_of_nil : last_byte_of [] = Raise IndexError.
Proof. reflexivity. Qed.

Lemma last_byte_of_nonempty (s : bytes) :
  s <> [] -> exists p, last s = Some p /\ last_byte_of s = Ok p.
Proof.
  intros Hne. destruct (last s) as [p|] eqn:Hp.
  - exists p. split; [done|]. by apply last_byte_of_last.
  - apply last_None in Hp. done.
Qed.

Lemma slice_to_neg_length (s : bytes) (p : Z) :
  (length (slice_to_neg s p) <= length s)%nat.
Proof.
  unfold slice_to_neg. destruct (p =? 0); cbn; [lia|].
  rewrite length_take. lia.
Qed.

(** X4: key unwrapping raises [ValueError] exactly when the key block is
    not a whole number of 16-byte blocks and [IndexError] exactly when it
    is empty; every other key block unwraps to a raw key that is at least
    17 bytes shorter than the block. *)
Theorem unwrap_key_outcomes (key_block : bytes) :
  match unwrap_key key_block with
  | Ok key_data =>
      key_block <> [] /\ (length key_block mod 16 = 0)%nat
      /\ (length key_data <= length key_block - 17)%nat
  | Raise e =>
      (e = ValueError /\ (length key_block mod 16 <> 0)%nat)
      \/ (e = IndexError /\ key_block = [])
  end.
Proof.
  unfold unwrap_key.
  destruct (aes_ecb_decrypt_cases core_key (xor_all 0x64 key_block) core_round_key_length)
    as [[Hmod ->]|[Hmod (dec & -> & Hlen)]];
    unfold xor_all in *; rewrite length_fmap in *.
  - left. done.
  - cbn [mbind result_bind]. unfold unpad.
    destruct key_block as [|b key_block].
    + destruct dec; [|discriminate]. rewrite last_byte_of_nil. right. done.
    + destruct (last_byte_of_nonempty dec) as (p & _ & ->).
      { intros ->. discriminate. }
      cbn [mbind result_bind]. split; [done|]. split; [done|].
      rewrite length_drop. pose proof (slice_to_neg_length dec p). lia.
Qed.

(** ** Files that end inside the header *)

Lemma unpack_u32_le_short (b : bytes) :
  length b <> 4%nat -> unpack_u32_le b = Raise StructError.
Proof. destruct b as [|? [|? [|? [|? [|? ?]]]]]; cbn; by try lia. Qed.

(** X5: a file that starts with the magic signature and ends before the
    key length field is complete (fewer than 14 bytes) is rejected with
    [struct.error] at the first [struct.unpack]. *)
Theorem header_cut_short (h : host) (content : bytes) (target_folder filename : list Z) :
  take 8 content = magic -> (length content < 14)%nat ->
  parse_container h content target_folder filename = Raise StructError.
Proof.
  intros Hmagic Hshort. unfold parse_container.
  rewrite read_chunk. cbn [data pos]. rewrite drop_0, Hmagic.
  rewrite bool_decide_eq_true_2 by done.
  unfold read_key_box. rewrite read_chunk. cbv beta iota.
  rewrite unpack_u32_le_short; [done|].
  cbn [seek_cur data pos]. rewrite length_take, length_drop.
  change (length magic) with 8%nat. lia.
Qed.

Lemma header_cut_short_witness :
  parse_container sample_host (magic ++ [1; 112; 32]) (codes "out") (codes "song")
  = Raise StructError.
Proof.
  apply (header_cut_short sample_host (magic ++ [1; 112; 32])).
  - reflexivity.
  - simpl. lia.
Defined.

(** ** A metadata block without content *)

Lemma aes_meta_empty : aes_ecb_decrypt meta_key [] = Ok [].
Proof. vm_compute. reflexivity. Qed.

(** X6: a metadata block of at most 22 bytes, whether its length field
    says so or the file ends there, makes the conversion fail with
    [IndexError]: nothing is left after the 22-byte prefix, and the
    unpadding indexes the empty decryption. *)
Theorem short_metadata_raises (f : file) (meta_length rest : bytes) (n : Z) :
  drop (pos f) (data f) = meta_length ++ rest ->
  unpack_u32_le meta_length = Ok n ->
  n <= 22 \/ (length rest <= 22)%nat ->
  read_meta f = Raise IndexError.
Proof.
  intros Hsplit Hn Hshort.
  pose proof (unpack_u32_le_length _ _ Hn) as Hlen4.
  pose proof (read_exact f meta_length rest Hsplit) as Hread. rewrite Hlen4 in Hread.
  unfold read_meta. rewrite Hread. cbv beta iota.
  rewrite Hn. cbn [mbind result_bind]. rewrite read_chunk. cbv beta iota.
  cbn [data pos]. rewrite <- Hlen4, (drop_after f meta_length rest Hsplit).
  rewrite drop_ge.
  2:{ unfold xor_all. rewrite length_fmap, length_take. lia. }
  change (b64decode []) with (Ok (A:=list Z) []). cbn [mbind result_bind].
  by rewrite aes_meta_empty.
Qed.

Lemma short_metadata_raises_witness :
  read_meta (File (u32_le 0 ++ sample_audio) 0) = Raise IndexError.
Proof.
  apply (short_metadata_raises (File (u32_le 0 ++ sample_audio) 0) (u32_le 0) sample_audio 0).
  - reflexivity.
  - reflexivity.
  - left. lia.
Defined.

(** ** What a successful parse returns *)

Lemma derive_key_box_length (key_data key_box : bytes) :
  derive_key_box key_data = Ok key_box -> length key_box = 256%nat.
Proof.
  intros Hbox. destruct key_data as [|k key_data].
  { vm_compute in Hbox. discriminate. }
  unfold derive_key_box in Hbox.
  destruct (ksa_range_perm (k :: key_data) 256 0 (Ksa range256 0 0)) as (st & Hrun & Hperm);
    [reflexivity|lia|lia|cbn [key_offset length]; lia|].
  rewrite Hrun in Hbox. cbn [mbind result_bind] in Hbox. injection Hbox as <-.
  by rewrite Hperm.
Qed.

Lemma read_data (n : nat) (f : file) : data (read n f).2 = data f.
Proof. done. Qed.

Lemma read_key_box_frame (f f' : file) (key_box : bytes) :
  read_key_box f = Ok (key_box, f') -> data f' = data f /\ length key_box = 256%nat.
Proof.
  unfold read_key_box. rewrite read_chunk. cbv beta iota.
  destruct (unpack_u32_le _) as [n|]; [|discriminate].
  cbn [mbind result_bind]. rewrite read_chunk. cbv beta iota.
  destruct (unwrap_key _) as [key_data|]; [|discriminate].
  cbn [mbind result_bind].
  destruct (derive_key_box key_data) as [box|] eqn:Hbox; [|discriminate].
  cbn [mbind result_bind]. intros [= <- <-].
  split; [done|]. by eapply derive_key_box_length.
Qed.

Lemma read_meta_frame (f f' : file) (meta_data : json) :
  read_meta f = Ok (meta_data, f') -> data f' = data f.
Proof.
  unfold read_meta. rewrite read_chunk. cbv beta iota.
  destruct (unpack_u32_le _) as [n|]; [|discriminate].
  cbn [mbind result_bind]. rewrite read_chunk. cbv beta iota.
  destruct (b64decode _) as [b|]; [|discriminate]. cbn [mbind result_bind].
  destruct (aes_ecb_decrypt _ _) as [dec|]; [|discriminate]. cbn [mbind result_bind].
  destruct (unpad _) as [raw|]; [|discriminate]. cbn [mbind result_bind].
  destruct (utf8_decode _) as [text|]; [|discriminate]. cbn [mbind result_bind].
  destruct (json_loads _) as [m|]; [|discriminate]. cbn [mbind result_bind].
  by intros [= <- <-].
Qed.

Lemma take_then_rest (n : nat) (l : bytes) :
  take n l ++ drop (length (take n l)) l = l.
Proof.
  destruct (decide (n <= length l)%nat) as [Hle|Hgt].
  - rewrite length_take_le by done. apply take_drop.
  - rewrite take_ge by lia. rewrite drop_all. apply app_nil_r.
Qed.

Lemma read_cover_frame (f f' : file) (image_data : bytes) :
  read_cover f = Ok (image_data, f') ->
  data f' = data f
  /\ exists p, pos f' = (p + length image_data)%nat
               /\ image_data ++ drop (pos f') (data f) = drop p (data f).
Proof.
  unfold read_cover. rewrite read_chunk. cbv beta iota.
  destruct (unpack_u32_le _) as [c|]; [|discriminate].
  cbn [mbind result_bind]. rewrite read_chunk. cbv beta iota.
  destruct (unpack_u32_le _) as [n|]; [|discriminate].
  cbn [mbind result_bind]. rewrite read_chunk. cbv beta iota.
  intros [= <- <-]. cbn [data pos]. split; [done|].
  eexists. split; [reflexivity|].
  set (p := (_ + _ + _ + _)%nat).
  rewrite <- drop_drop. apply take_then_rest.
Qed.

Lemma bind_ok {A B} (m : result A) (k : A -> result B) (b : B) :
  m ≫= k = Ok b -> exists a, m = Ok a /\ k a = Ok b.
Proof. destruct m as [a|e]; cbn; [by exists a|discriminate]. Qed.

Lemma decode_stream_length (size : nat) (key_box : bytes) (f f' : file) (audio : bytes) :
  length key_box = 256%nat -> (1 <= size)%nat ->
  decode_stream size key_box f = Ok (audio, f') -> length audio = remaining f.
Proof.
  intros Hbox Hsize Hrun. unfold decode_stream in Hrun.
  destruct (decode_loop_spec key_box size (S (remaining f)) Hbox Hsize f [])
    as (out & f1 & Hrun1 & Hlen & _); [lia|].
  rewrite Hrun1 in Hrun. by injection Hrun as <- <-.
Qed.

(** X7: what a successful parse returns.  The file starts with the magic
    signature; the output path is in the target folder and its name is the
    stem, a dot and an extension; the cover image is a slice of the file,
    and the decoded audio has exactly the length of what follows that
    slice: no byte of the payload is dropped or added. *)
Theorem parse_container_shape (h : host) (content : bytes)
    (target_folder filename : list Z) (target_filename : path)
    (image_data audio_data : bytes) :
  parse_container h content target_folder filename
  = Ok (target_filename, image_data, audio_data) ->
  take 8 content = magic
  /\ target_filename.1 = target_folder
  /\ (exists ext, target_filename.2 = filename ++ codes "." ++ ext)
  /\ exists before payload,
       content = before ++ image_data ++ payload
       /\ length audio_data = length payload.
Proof.
  unfold parse_container. rewrite read_chunk. cbn [data pos]. rewrite drop_0.
  destruct (decide (take 8 content = magic)) as [Hmagic|Hbad].
  2:{ rewrite bool_decide_eq_false_2 by done. discriminate. }
  rewrite bool_decide_eq_true_2 by done.
  intros ([key_box f1] & Hkey & ([meta_data f2] & Hmeta & ([image f3] & Hcover &
    (fmt & Hfmt & ([audio f4] & Hdec & Hret)%bind_ok)%bind_ok)%bind_ok)%bind_ok)%bind_ok.
  injection Hret as <- <- <-.
  apply read_key_box_frame in Hkey as [Hd1 Hbox].
  apply read_meta_frame in Hmeta as Hd2.
  apply read_cover_frame in Hcover as (Hd3 & p & Hpos & Hsplit).
  assert (data f2 = content) as Hcontent by (by rewrite Hd2, Hd1).
  split; [exact Hmagic|]. split; [reflexivity|]. split; [eexists; reflexivity|].
  exists (take p content), (drop (pos f3) content).
  rewrite Hcontent in Hsplit. split.
  - rewrite Hsplit. symmetry. apply take_drop.
  - assert (1 <= CHUNK)%nat as Hchunk by (unfold CHUNK; lia).
    rewrite (decode_stream_length CHUNK key_box f3 f4 audio Hbox Hchunk Hdec).
    rewrite remaining_drop, Hd3, Hcontent. reflexivity.
Qed.

Lemma parse_container_shape_witness :
  take 8 sample_container = magic
  /\ (codes "out", codes "song.mp3").1 = codes "out"
  /\ (exists ext, (codes "out", codes "song.mp3").2 = codes "song" ++ codes "." ++ ext)
  /\ exists before payload,
       sample_container = before ++ sample_cover ++ payload
       /\ length [251; 163; 218; 243; 124; 18; 94; 124; 17; 174] = length payload.
Proof.
  apply (parse_container_shape sample_host sample_container (codes "out") (codes "song")).
  vm_compute. reflexivity.
Defined.

(** ** Converting without a muxer *)

Lemma raw_success_inv (h : host) (filepath : path) (target_folder : list Z)
    (after_timestamp : option Z) (w w1 : world) (t : path) :
  dump_single_file h filepath target_folder after_timestamp None w = (w1, Ok (Some t)) ->
  keyboard_interrupt h filepath = false
  /\ too_old h w filepath after_timestamp = Ok false
  /\ endswith filepath.2 (codes ".ncm") = true
  /\ exists content image_data audio_data,
       fs w !! filepath = Some content
       /\ parse_container h content target_folder
            (take (length filepath.2 - 4) filepath.2) = Ok (t, image_data, audio_data)
       /\ w1 = add_log (InfoSaved t)
                 (write_file t audio_data (add_log (InfoConverting filepath) w)).
Proof.
  unfold dump_single_file, convert.
  destruct (keyboard_interrupt h filepath); [discriminate|].
  destruct (too_old h w filepath after_timestamp) as [[|]|e]; [discriminate| |by destruct e].
  destruct (endswith filepath.2 (codes ".ncm")); [|discriminate]. cbn [negb].
  destruct (list_find _ _) as [[? fname]|]; [discriminate|].
  cbn [fs add_log].
  destruct (fs w !! filepath) as [content|]; [|discriminate].
  destruct (parse_container h content _ _) as [[[t' image] audio]|e] eqn:Hparse;
    [|by destruct e].
  cbn [truthy]. intros [= <- <-].
  split; [done|]. split; [done|]. split; [done|]. by exists content, image, audio.
Qed.


(** X9: running again after a conversion.  When a run without a muxer has
    written an [.mp3] or [.flac] output for a file, the next run on the
    same file and target folder is a skip: it warns about the existing
    output, returns [None] and leaves the file system as it is. *)
Theorem second_run_skips (h : host) (filepath : path) (target_folder : list Z)
    (after_timestamp : option Z) (w w1 : world) (t : path) :
  dump_single_file h filepath target_folder after_timestamp None w = (w1, Ok (Some t)) ->
  t = (target_folder, take (length filepath.2 - 4) filepath.2 ++ codes "." ++ codes "mp3")
  \/ t = (target_folder, take (length filepath.2 - 4) filepath.2 ++ codes "." ++ codes "flac") ->
  exists fname,
    dump_single_file h filepath target_folder after_timestamp None w1
    = (add_log (WarnSkippingExisting filepath fname) w1, Ok None)
    /\ is_Some (fs w1 !! fname).
Proof.
  intros Hfirst Ht.
  apply raw_success_inv in Hfirst
    as (Hint & Hold & Hext & content & image & audio & Hfile & _ & ->).
  assert (fs (add_log (InfoSaved t)
               (write_file t audio (add_log (InfoConverting filepath) w)))
          = <[t := audio]> (fs w)) as Hfs by done.
  set (w1 := add_log (InfoSaved t) _) in *.
  assert (isfile w1 t = true) as Hexists.
  { unfold isfile. apply bool_decide_eq_true_2. rewrite Hfs, lookup_insert_eq. by eexists. }
  unfold dump_single_file, convert. rewrite Hint.
  assert (too_old h w1 filepath after_timestamp = Ok false) as ->.
  { unfold too_old in *. destruct after_timestamp as [ts|]; [|done].
    destruct (ts =? 0); [done|]. rewrite Hfile in Hold. rewrite Hfs.
    destruct (decide (t = filepath)) as [->|Hne].
    - by rewrite lookup_insert_eq.
    - by rewrite lookup_insert_ne, Hfile. }
  rewrite Hext. cbn [negb].
  destruct (list_find (isfile w1) _) as [[i fname]|] eqn:Hfind.
  - apply list_find_Some in Hfind as (_ & Hfname & _).
    exists fname. split; [done|]. unfold isfile in Hfname.
    by apply bool_decide_unpack in Hfname.
  - exfalso. apply list_find_None in Hfind.
    rewrite Forall_forall in Hfind.
    apply (Hfind t); [|by rewrite Hexists].
    destruct Ht as [->| ->]; cbn; set_solver.
Qed.

Lemma second_run_skips_witness :
  exists fname,
    dump_single_file sample_host song_ncm (codes "out") None None
      (dump_single_file sample_host song_ncm (codes "out") None None sample_world).1
    = (add_log (WarnSkippingExisting song_ncm fname)
         (dump_single_file sample_host song_ncm (codes "out") None None sample_world).1,
       Ok None)
    /\ is_Some ((fs (dump_single_file sample_host song_ncm (codes "out") None None
                       sample_world).1) !! fname).
Proof.
  apply (second_run_skips sample_host song_ncm (codes "out") None sample_world _
           (codes "out", codes "song.mp3")).
  - vm_compute. reflexivity.
  - left. reflexivity.
Defined.

(** ** The creation-time filter *)

(** X10: the filter on creation times.  A file created before a threshold
    other than 0 is skipped with the record of it: it is not parsed and
    nothing is written, whatever it contains; a threshold of 0 counts as
    no threshold. *)
Theorem creation_time_filter (h : host) (filepath : path) (target_folder : list Z)
    (t : Z) (ffmpeg_path : option (list Z)) (w : world) (content : bytes) :
  keyboard_interrupt h filepath = false ->
  fs w !! filepath = Some content ->
  t <> 0 ->
  (getctime h filepath < inject_Z t)%Q ->
  dump_single_file h filepath target_folder (Some t) ffmpeg_path w
  = (add_log (InfoSkippingOld filepath) w, Ok None)
  /\ dump_single_file h filepath target_folder (Some 0) ffmpeg_path w
     = dump_single_file h filepath target_folder None ffmpeg_path w.
Proof.
  intros Hint Hfile Ht Hold. split; [|done].
  unfold dump_single_file, convert, too_old. rewrite Hint, Hfile.
  destruct (Z.eqb_spec t 0); [done|].
  destruct (Qle_bool (inject_Z t) (getctime h filepath)) eqn:Hle; [|done].
  apply Qle_bool_iff in Hle. by apply Qle_not_lt in Hle.
Qed.

Lemma creation_time_filter_witness :
  dump_single_file sample_host song_ncm (codes "out") (Some 5) None sample_world
  = (add_log (InfoSkippingOld song_ncm) sample_world, Ok None)
  /\ dump_single_file sample_host song_ncm (codes "out") (Some 0) None sample_world
     = dump_single_file sample_host song_ncm (codes "out") None None sample_world.
Proof.
  apply (creation_time_filter sample_host song_ncm (codes "out") 5 None sample_world
           sample_container).
  - reflexivity.
  - vm_compute. reflexivity.
  - lia.
  - vm_compute. reflexivity.
Defined.

(** ** Files that are not containers by name *)

(** X11: a batch of files none of which has a name ending in [.ncm] is a
    run without effect: no file is opened or written, nothing is logged
    for any of them, and the batch finishes. *)
Theorem dump_ignores_other_files (h : host) (all_filepaths : list path)
    (target_folder : option (list Z)) (ffmpeg_path : option (list Z)) (w : world) :
  Forall (fun fp => keyboard_interrupt h fp = false
                    /\ endswith fp.2 (codes ".ncm") = false) all_filepaths ->
  dump h all_filepaths target_folder None ffmpeg_path w
  = (add_log InfoAllFinished (batch_start w), Ok tt).
Proof.
  intros Hall. unfold dump.
  assert (forall w0, dump_loop h all_filepaths target_folder None
                       (batch_ffmpeg h ffmpeg_path) w0 = (w0, Ok tt)) as ->; [|done].
  induction Hall as [|fp rest [Hint Hext] _ IH]; intros w0; [done|].
  cbn [dump_loop]. unfold dump_single_file, convert.
  rewrite Hint. cbn [too_old]. rewrite Hext. cbn [negb]. apply IH.
Qed.

Lemma dump_ignores_other_files_witness :
  dump sample_host [(codes "music", codes "cover.jpg"); (codes "music", codes "notes.txt")]
    None None None sample_world
  = (add_log InfoAllFinished (batch_start sample_world), Ok tt).
Proof.
  apply (dump_ignores_other_files sample_host
           [(codes "music", codes "cover.jpg"); (codes "music", codes "notes.txt")]).
  repeat constructor.
Defined.

(** ** Nothing is deleted *)

Lemma extends_refl (w : world) : extends w w.
Proof. by repeat split. Qed.

Lemma extends_trans (w1 w2 w3 : world) : extends w1 w2 -> extends w2 w3 -> extends w1 w3.
Proof.
  intros (Hf1 & Hl1 & Ht1) (Hf2 & Hl2 & Ht2). repeat split.
  - intros p Hp. by apply Hf2, Hf1.
  - by etrans.
  - by etrans.
Qed.

Lemma extends_add_log (e : log_entry) (w : world) : extends w (add_log e w).
Proof. repeat split; [done|by apply prefix_app_r|done]. Qed.

Lemma extends_write_file (p : path) (content : bytes) (w : world) :
  extends w (write_file p content w).
Proof.
  repeat split; [|done|done]. intros q Hq. cbn.
  destruct (decide (p = q)) as [->|Hne].
  - rewrite lookup_insert_eq. by eexists.
  - by rewrite lookup_insert_ne.
Qed.

Lemma extends_merge (h : host) (ffmpeg_path : list Z) (blob_audio blob_cover_img : bytes)
    (output_file : path) (w : world) :
  extends w (merge_audio_with_cover h ffmpeg_path blob_audio blob_cover_img output_file w).1.
Proof.
  unfold merge_audio_with_cover.
  destruct (ffmpeg h _ blob_cover_img blob_audio) as [exit_code produced].
  set (w' := World _ _ _).
  assert (extends w w') as Hext.
  { subst w'. repeat split; [|done|by apply prefix_app_r]. intros q Hq. cbn.
    destruct produced as [content|]; [|done].
    destruct (decide (output_file = q)) as [->|Hne].
    - rewrite lookup_insert_eq. by eexists.
    - by rewrite lookup_insert_ne. }
  by destruct (exit_code =? 0).
Qed.

Lemma extends_dump_single_file (h : host) (filepath : path) (target_folder : list Z)
    (after_timestamp : option Z) (ffmpeg_path : option (list Z)) (w : world) :
  extends w (dump_single_file h filepath target_folder after_timestamp ffmpeg_path w).1.
Proof.
  unfold dump_single_file, convert.
  destruct (keyboard_interrupt h filepath); [apply extends_add_log|].
  destruct (too_old h w filepath after_timestamp) as [[|]|e];
    [apply extends_add_log| |destruct e; apply extends_refl || apply extends_add_log].
  destruct (negb (endswith filepath.2 (codes ".ncm"))); [apply extends_refl|].
  destruct (list_find _ _) as [[? fname]|]; [apply extends_add_log|].
  set (w0 := add_log (InfoConverting filepath) w).
  assert (extends w w0) as H0 by apply extends_add_log.
  destruct (fs w0 !! filepath) as [content|]; [|done].
  destruct (parse_container h content _ _) as [[[t image] audio]|e];
    [|destruct e; done || (eapply extends_trans; [exact H0|apply extends_add_log])].
  destruct (truthy ffmpeg_path) as [exe|].
  - pose proof (extends_merge h exe audio image t w0) as Hm.
    destruct (merge_audio_with_cover h exe audio image t w0) as [w1 [[]|e]]; cbn [fst] in *.
    + eapply extends_trans; [exact H0|]. eapply extends_trans; [exact Hm|].
      apply extends_add_log.
    + destruct e; (eapply extends_trans; [exact H0|]); try exact Hm.
      eapply extends_trans; [exact Hm|apply extends_add_log].
  - eapply extends_trans; [exact H0|].
    eapply extends_trans; [apply extends_write_file|apply extends_add_log].
Qed.

Lemma extends_dump_loop (h : host) (all_filepaths : list path)
    (target_folder : option (list Z)) (after_timestamp : option Z)
    (ffmpeg_path : option (list Z)) (w : world) :
  extends w (dump_loop h all_filepaths target_folder after_timestamp ffmpeg_path w).1.
Proof.
  revert w. induction all_filepaths as [|fp rest IH]; intros w; [apply extends_refl|].
  cbn [dump_loop].
  pose proof (extends_dump_single_file h fp (folder_for target_folder fp)
                after_timestamp ffmpeg_path w) as Hone.
  destruct (dump_single_file h fp _ _ _ w) as [w' [r|e]]; cbn [fst] in *; [|done].
  eapply extends_trans; [exact Hone|apply IH].
Qed.

Lemma extends_batch_start (w : world) : extends w (batch_start w).
Proof.
  unfold batch_start. eapply extends_trans; [|apply extends_add_log].
  generalize (seq 0 9). intros lines. revert w.
  induction lines as [|line lines IH]; intros w; [apply extends_refl|].
  cbn [foldl]. eapply extends_trans; [apply extends_add_log|apply IH].
Qed.

(** X12: a batch only adds.  Whatever the files are and whatever the
    muxer answers (it is modelled as writing its output file and nothing
    else), every file that exists before [dump] exists after it, and the
    log and the trace of calls on pipes are continued, never rewritten;
    the same holds for a single [dump_single_file]. *)
Theorem dump_only_adds (h : host) (all_filepaths : list path)
    (target_folder : option (list Z)) (after_timestamp : option Z)
    (ffmpeg_path : option (list Z)) (w : world) (filepath : path) (folder : list Z) :
  extends w (dump h all_filepaths target_folder after_timestamp ffmpeg_path w).1
  /\ extends w (dump_single_file h filepath folder after_timestamp ffmpeg_path w).1.
Proof.
  split; [|apply extends_dump_single_file].
  unfold dump.
  pose proof (extends_dump_loop h all_filepaths target_folder after_timestamp
                (batch_ffmpeg h ffmpeg_path) (batch_start w)) as Hloop.
  pose proof (extends_batch_start w) as Hstart.
  destruct (dump_loop h all_filepaths _ _ _ (batch_start w)) as [w' [r|e]]; cbn [fst] in *.
  - eapply extends_trans; [exact Hstart|].
    eapply extends_trans; [exact Hloop|apply extends_add_log].
  - by eapply extends_trans.
Qed.

(** ** The writes on a pipe *)

Lemma pipe_chunks_nonempty (fuel : nat) (blob : bytes) :
  pipe_chunks fuel blob <> [] -> blob <> [].
Proof. destruct fuel, blob; cbn; congruence. Qed.

Lemma chunk_size_positive : (1 <= DEFAULT_CHUNK_SIZE)%nat.
Proof. unfold DEFAULT_CHUNK_SIZE. lia. Qed.

Lemma pipe_chunks_bounds (fuel : nat) (blob : bytes) :
  Forall (fun chunk => (1 <= length chunk <= DEFAULT_CHUNK_SIZE)%nat) (pipe_chunks fuel blob).
Proof.
  pose proof chunk_size_positive as Hsize.
  revert blob. induction fuel as [|fuel IH]; intros blob; [constructor|].
  cbn [pipe_chunks]. destruct blob as [|b blob]; [constructor|].
  constructor; [|apply IH].
  rewrite length_take. generalize dependent DEFAULT_CHUNK_SIZE. intros n Hn _.
  cbn [length]. lia.
Qed.

Lemma pipe_chunks_full (fuel : nat) (blob : bytes) (i : nat) (chunk : bytes) :
  pipe_chunks fuel blob !! i = Some chunk ->
  (S i < length (pipe_chunks fuel blob))%nat ->
  length chunk = DEFAULT_CHUNK_SIZE.
Proof.
  revert blob i. induction fuel as [|fuel IH]; intros blob i; [done|].
  cbn [pipe_chunks]. destruct blob as [|b blob]; [done|].
  destruct i as [|i].
  - intros Heq Hmore. apply (inj Some) in Heq. subst chunk.
    assert (pipe_chunks fuel (drop DEFAULT_CHUNK_SIZE (b :: blob)) <> []) as Hrest.
    { intros Hnil. rewrite Hnil in Hmore. cbn [length] in Hmore. lia. }
    apply pipe_chunks_nonempty in Hrest.
    apply length_take_le.
    destruct (decide (DEFAULT_CHUNK_SIZE <= length (b :: blob))%nat) as [Hle|Hgt];
      [exact Hle|].
    exfalso. apply Hrest. apply drop_ge. lia.
  - intros Hi Hmore. eapply IH; [exact Hi|].
    cbn [length] in Hmore. lia.
Qed.

(** X13: [connect_and_write_pipe] connects, writes and closes, in that
    order; the chunks it writes are the blob cut in order, none of them
    empty and none longer than [DEFAULT_CHUNK_SIZE], all but the last of
    exactly that size.  An empty blob gives no write at all. *)
Theorem pipe_writes_are_bounded (pipe_fd : list Z) (blob : bytes) :
  exists chunks,
    connect_and_write_pipe pipe_fd blob
    = ConnectNamedPipe pipe_fd :: (WriteFile pipe_fd <$> chunks) ++ [CloseHandle pipe_fd]
    /\ concat chunks = blob
    /\ Forall (fun chunk => (1 <= length chunk <= DEFAULT_CHUNK_SIZE)%nat) chunks
    /\ (forall (i : nat) (chunk : bytes),
          chunks !! i = Some chunk -> (S i < length chunks)%nat ->
          length chunk = DEFAULT_CHUNK_SIZE)
    /\ (blob = [] -> chunks = []).
Proof.
  exists (pipe_chunks (length blob) blob).
  split; [done|].
  split; [by apply concat_pipe_chunks|].
  split; [apply pipe_chunks_bounds|].
  split; [apply pipe_chunks_full|].
  by intros ->.
Qed.

(** ** The search for the muxer *)

Lemma first_ffmpeg_spec (found : path -> bool) (paths : list (list Z)) :
  match first_ffmpeg found paths with
  | Some full_path =>
      exists before after,
        paths = before ++ full_path.1 :: after
        /\ full_path.2 = codes "ffmpeg.exe"
        /\ full_path.1 <> []
        /\ found full_path = true
        /\ Forall (fun dir => dir = [] \/ found (dir, codes "ffmpeg.exe") = false) before
  | None => Forall (fun dir => dir = [] \/ found (dir, codes "ffmpeg.exe") = false) paths
  end.
Proof.
  induction paths as [|dir paths IH]; [constructor|].
  cbn [first_ffmpeg].
  destruct (decide (length dir = 0%nat)) as [Hempty|Hne].
  - rewrite bool_decide_eq_true_2 by done.
    apply length_zero_iff_nil in Hempty as ->.
    destruct (first_ffmpeg found paths) as [full_path|].
    + destruct IH as (before & after & -> & Hname & Hdir & Hfound & Hbefore).
      exists ([] :: before), after.
      split; [done|]. split; [done|]. split; [done|]. split; [done|].
      constructor; [by left|done].
    + constructor; [by left|done].
  - rewrite bool_decide_eq_false_2 by done.
    destruct (found (dir, codes "ffmpeg.exe")) eqn:Hfound.
    + exists [], paths.
      split; [done|]. split; [done|].
      split; [cbn [fst]; intros ->; by apply Hne|].
      split; [done|constructor].
    + destruct (first_ffmpeg found paths) as [full_path|].
      * destruct IH as (before & after & -> & Hname & Hdir & Hfound' & Hbefore).
        exists (dir :: before), after.
        split; [done|]. split; [done|]. split; [done|]. split; [done|].
        constructor; [by right|done].
      * constructor; [by right|done].
Qed.

(** X14: [find_ffmpeg] returns the [ffmpeg.exe] of the first entry, in
    the order [sys.path] and then the [;]-separated entries of [PATH],
    that is not empty and has one, and [None] when no entry has one; it
    leaves [sys.path] extended by the entries of [PATH]; without a [PATH]
    it raises [KeyError] and leaves [sys.path] alone. *)
Theorem find_ffmpeg_first_match (found : path -> bool) (sys_path : list (list Z))
    (environ_PATH : option (list Z)) :
  match environ_PATH with
  | None => find_ffmpeg_from found sys_path environ_PATH = (sys_path, Raise KeyError)
  | Some value =>
      exists r,
        find_ffmpeg_from found sys_path environ_PATH = (sys_path ++ split 59 value, Ok r)
        /\ match r with
           | Some full_path =>
               exists before after,
                 sys_path ++ split 59 value = before ++ full_path.1 :: after
                 /\ full_path.2 = codes "ffmpeg.exe"
                 /\ full_path.1 <> []
                 /\ found full_path = true
                 /\ Forall (fun dir => dir = [] \/ found (dir, codes "ffmpeg.exe") = false)
                      before
           | None =>
               Forall (fun dir => dir = [] \/ found (dir, codes "ffmpeg.exe") = false)
                 (sys_path ++ split 59 value)
           end
  end.
Proof.
  destruct environ_PATH as [value|]; [|done].
  eexists. split; [reflexivity|]. apply first_ffmpeg_spec.
Qed.

Example find_ffmpeg_from_path :
  find_ffmpeg_from (fun p => bool_decide (p = (codes "C:\tools", codes "ffmpeg.exe")))
    [codes "C:\py"; []] (Some (codes "C:\bin;;C:\tools;C:\other"))
  = ([codes "C:\py"; []; codes "C:\bin"; []; codes "C:\tools"; codes "C:\other"],
     Ok (Some (codes "C:\tools", codes "ffmpeg.exe"))).
Proof. vm_compute. reflexivity. Qed.

(** ** Which exceptions the parsing stages raise *)

Lemma getitem_raises (s : bytes) (i : Z) (e : exn) :
  getitem s i = Raise e -> e = IndexError.
Proof.
  unfold getitem. destruct (index_of_int s i) as [k|]; [|by intros [= <-]].
  destruct (s !! k); [discriminate|by intros [= <-]].
Qed.

Lemma setitem_raises (s : bytes) (i v : Z) (e : exn) :
  setitem s i v = Raise e -> e = IndexError.
Proof.
  unfold setitem. destruct (index_of_int s i); [discriminate|by intros [= <-]].
Qed.

Lemma bind_raises {A B} (m : result A) (k : A -> result B) (e : exn) :
  m ≫= k = Raise e -> m = Raise e \/ exists a, m = Ok a /\ k a = Raise e.
Proof. destruct m as [a|e']; cbn; [right; by exists a|intros [= <-]; by left]. Qed.

Lemma for_range_raises {St} (P : exn -> Prop) (body : Z -> St -> result St) (n : nat) :
  (forall i s e, body i s = Raise e -> P e) ->
  forall (start : Z) (s : St) (e : exn), for_range start n body s = Raise e -> P e.
Proof.
  intros Hbody. induction n as [|n IH]; intros start s e; [discriminate|].
  cbn [for_range]. intros [Hstep|(s' & _ & Hrest)]%bind_raises.
  - by eapply Hbody.
  - by eapply IH.
Qed.

Lemma mask_raises (key_box : bytes) (i : Z) (e : exn) :
  mask key_box i = Raise e -> e = IndexError.
Proof.
  unfold mask. intros [H|(a & _ & [H|(b & _ & H)]%bind_raises)]%bind_raises;
    by eapply getitem_raises.
Qed.

Lemma decode_chunk_raises (key_box chunk : bytes) (e : exn) :
  decode_chunk key_box chunk = Raise e -> e = IndexError.
Proof.
  unfold decode_chunk. apply (for_range_raises (fun e => e = IndexError)).
  intros i s e'. unfold decode_step.
  intros [H|(m & _ & [H|(c & _ & H)]%bind_raises)]%bind_raises.
  - by eapply mask_raises.
  - by eapply getitem_raises.
  - by eapply setitem_raises.
Qed.

Lemma decode_loop_raises (fuel size : nat) (key_box : bytes) (f : file) (m : bytes)
    (e : exn) :
  decode_loop fuel size key_box f m = Raise e -> e = IndexError.
Proof.
  revert f m. induction fuel as [|fuel IH]; intros f m; [discriminate|].
  cbn [decode_loop]. rewrite read_chunk.
  destruct (take size _) as [|c cs]; [discriminate|].
  intros [H|(chunk' & _ & H)]%bind_raises.
  - by eapply decode_chunk_raises.
  - by eapply IH.
Qed.

Lemma ksa_step_raises (key_data : bytes) (i : Z) (st : ksa) (e : exn) :
  ksa_step key_data i st = Raise e -> e = IndexError.
Proof.
  unfold ksa_step. intros H.
  apply bind_raises in H as [H|(swap & _ & H)]; [by eapply getitem_raises|].
  apply bind_raises in H as [H|(k & _ & H)]; [by eapply getitem_raises|].
  cbv zeta in H.
  apply bind_raises in H as [H|(y & _ & H)]; [by eapply getitem_raises|].
  apply bind_raises in H as [H|(box1 & _ & H)]; [by eapply setitem_raises|].
  apply bind_raises in H as [H|(box2 & _ & H)]; [by eapply setitem_raises|].
  discriminate.
Qed.

Lemma derive_key_box_raises (key_data : bytes) (e : exn) :
  derive_key_box key_data = Raise e -> e = IndexError.
Proof.
  unfold derive_key_box. intros [H|(st & _ & H)]%bind_raises; [|discriminate].
  revert H. apply (for_range_raises (fun e => e = IndexError)).
  intros i st e'. apply ksa_step_raises.
Qed.

Lemma unpack_u32_le_raises (b : bytes) (e : exn) :
  unpack_u32_le b = Raise e -> e = StructError.
Proof. destruct b as [|? [|? [|? [|? [|? ?]]]]]; cbn; by intros [= <-]. Qed.

Lemma aes_ecb_decrypt_raises (key s : bytes) (e : exn) :
  aes_ecb_decrypt key s = Raise e -> e = ValueError.
Proof. unfold aes_ecb_decrypt. destruct (_ =? _)%nat; [discriminate|by intros [= <-]]. Qed.

Lemma unpad_raises (s : bytes) (e : exn) : unpad s = Raise e -> e = IndexError.
Proof.
  unfold unpad. intros [H|(p & _ & H)]%bind_raises; [|discriminate].
  by eapply getitem_raises.
Qed.

Lemma unwrap_key_raises (key_block : bytes) (e : exn) :
  unwrap_key key_block = Raise e -> e = ValueError \/ e = IndexError.
Proof.
  unfold unwrap_key. intros [H|(dec & _ & [H|(s & _ & H)]%bind_raises)]%bind_raises.
  - left. by eapply aes_ecb_decrypt_raises.
  - right. by eapply unpad_raises.
  - discriminate.
Qed.

Lemma a2b_base64_raises (s : bytes) (quad_pos leftchar pads : Z) (out : bytes) (e : exn) :
  a2b_base64 s quad_pos leftchar pads out = Raise e -> e = BinasciiError.
Proof.
  revert quad_pos leftchar pads out.
  induction s as [|c s IH]; intros quad_pos leftchar pads out; cbn [a2b_base64].
  - destruct (quad_pos =? 0); [discriminate|by intros [= <-]].
  - repeat case_match; try discriminate; apply IH.
Qed.

Lemma fmap_raises {A B} (g : A -> B) (m : result A) (e : exn) :
  g <$> m = Raise e -> m = Raise e.
Proof. destruct m; cbn; [discriminate|by intros [= <-]]. Qed.

Lemma utf8_decode_raises_le (n : nat) (s : bytes) (e : exn) :
  (length s <= n)%nat -> utf8_decode s = Raise e -> e = UnicodeDecodeError.
Proof.
  revert s. induction n as [|n IH]; intros s Hlen.
  { destruct s; [discriminate|cbn in Hlen; lia]. }
  destruct s as [|b0 s1]; [discriminate|]. cbn [utf8_decode]. cbn [length] in Hlen.
  repeat case_match; subst; cbn [length] in Hlen;
    try (by intros [= <-]);
    intros Hrec%fmap_raises; (eapply IH; [|exact Hrec]); lia.
Qed.

Lemma utf8_decode_raises (s : bytes) (e : exn) :
  utf8_decode s = Raise e -> e = UnicodeDecodeError.
Proof. by apply (utf8_decode_raises_le (length s)). Qed.

Lemma scanstring_raises_le (n : nat) (s acc : list Z) (e : exn) :
  (length s <= n)%nat -> scanstring s acc = Raise e -> e = JSONDecodeError.
Proof.
  revert s acc. induction n as [|n IH]; intros s acc Hlen.
  { destruct s; [by intros [= <-]|cbn in Hlen; lia]. }
  destruct s as [|c s1]; [by intros [= <-]|]. cbn [scanstring]. cbn [length] in Hlen.
  repeat case_match; subst; cbn [length] in Hlen;
    try discriminate; try (by intros [= <-]);
    intros Hrec; (eapply IH; [|exact Hrec]); cbn [length]; lia.
Qed.

Lemma scanstring_raises (s acc : list Z) (e : exn) :
  scanstring s acc = Raise e -> e = JSONDecodeError.
Proof. by apply (scanstring_raises_le (length s)). Qed.

Lemma match_number_raises (s : list Z) (e : exn) :
  match_number s = Raise e -> e = JSONDecodeError.
Proof.
  unfold match_number. repeat case_match; try discriminate; by intros [= <-].
Qed.

Lemma scan_once_raises (fuel : nat) :
  (forall s e, scan_once fuel s = Raise e -> e = JSONDecodeError)
  /\ (forall s acc e, parse_members fuel s acc = Raise e -> e = JSONDecodeError)
  /\ (forall s acc e, parse_items fuel s acc = Raise e -> e = JSONDecodeError).
Proof.
  induction fuel as [|fuel (IHv & IHm & IHi)].
  { repeat split; intros; simplify_eq/=; done. }
  repeat split.
  - intros s e. cbn [scan_once]. destruct s as [|c s1]; [by intros [= <-]|].
    destruct (c =? 34).
    { intros [Hb|([str rest] & _ & Hb)]%bind_raises; [|discriminate].
      by eapply scanstring_raises. }
    destruct (c =? 123).
    { destruct (skip_ws s1) as [|c' s2]; [by intros [= <-]|].
      destruct (c' =? 125); [discriminate|apply IHm]. }
    destruct (c =? 91).
    { destruct (skip_ws s1) as [|c' s2]; [by intros [= <-]|].
      destruct (c' =? 93); [discriminate|apply IHi]. }
    repeat (destruct (starts_with _ _); [discriminate|]).
    apply match_number_raises.
  - intros s acc e. cbn [parse_members]. destruct s as [|q s1]; [by intros [= <-]|].
    destruct (q =? 34); [|by intros [= <-]].
    intros [H|([key s2] & _ & H)]%bind_raises; [by eapply scanstring_raises|].
    revert H. destruct (skip_ws s2) as [|colon s3]; [by intros [= <-]|].
    destruct (colon =? 58); [|by intros [= <-]].
    intros [H|([val s4] & _ & H)]%bind_raises; [by eapply IHv|].
    revert H. destruct (skip_ws s4) as [|d s5]; [by intros [= <-]|].
    destruct (d =? 125); [discriminate|].
    destruct (d =? 44); [by apply IHm|by intros [= <-]].
  - intros s acc e. cbn [parse_items].
    intros [H|([val s1] & _ & H)]%bind_raises; [by eapply IHv|].
    revert H. destruct (skip_ws s1) as [|d s2]; [by intros [= <-]|].
    destruct (d =? 93); [discriminate|].
    destruct (d =? 44); [by apply IHi|by intros [= <-]].
Qed.

Lemma json_loads_raises (s : list Z) (e : exn) :
  json_loads s = Raise e -> e = JSONDecodeError.
Proof.
  unfold json_loads.
  assert (('(obj, rest) ← scan_once (S (length s)) (skip_ws s);
           match skip_ws rest with
           | [] => Ok obj
           | _ :: _ => Raise JSONDecodeError
           end) = Raise e -> e = JSONDecodeError) as Hbody.
  { intros [H|([obj rest] & _ & H)]%bind_raises.
    - by eapply (proj1 (scan_once_raises _)).
    - destruct (skip_ws rest); [discriminate|by injection H as <-]. }
  repeat case_match; subst; try (by intros [= <-]); exact Hbody.
Qed.

Lemma json_getitem_raises (obj : json) (key : list Z) (e : exn) :
  json_getitem obj key = Raise e -> e = KeyError \/ e = TypeError.
Proof.
  unfold json_getitem. repeat case_match; try discriminate; intros [= <-]; auto.
Qed.

(** The exceptions a stage of the parser can raise. *)
Lemma read_key_box_raises (f : file) (e : exn) :
  read_key_box f = Raise e -> e = StructError \/ e = ValueError \/ e = IndexError.
Proof.
  unfold read_key_box. rewrite read_chunk. cbv beta iota.
  intros [H|(n & _ & H)]%bind_raises; [left; by eapply unpack_u32_le_raises|].
  revert H. rewrite read_chunk. cbv beta iota.
  intros [H|(key_data & _ & [H|(box & _ & H)]%bind_raises)]%bind_raises.
  - right. by eapply unwrap_key_raises.
  - right. right. by eapply derive_key_box_raises.
  - discriminate.
Qed.

Lemma read_meta_raises (f : file) (e : exn) :
  read_meta f = Raise e -> e <> AssertionError.
Proof.
  unfold read_meta. rewrite read_chunk. cbv beta iota.
  intros [H|(n & _ & H)]%bind_raises.
  { apply unpack_u32_le_raises in H as ->. done. }
  revert H. rewrite read_chunk. cbv beta iota.
  intros [H|(b & _ & [H|(dec & _ & [H|(raw & _ & [H|(text & _ & [H|(m & _ & H)]
    %bind_raises)]%bind_raises)]%bind_raises)]%bind_raises)]%bind_raises.
  - apply a2b_base64_raises in H as ->. done.
  - apply aes_ecb_decrypt_raises in H as ->. done.
  - apply unpad_raises in H as ->. done.
  - apply utf8_decode_raises in H as ->. done.
  - apply json_loads_raises in H as ->. done.
  - discriminate.
Qed.

Lemma read_cover_raises (f : file) (e : exn) :
  read_cover f = Raise e -> e = StructError.
Proof.
  unfold read_cover. rewrite read_chunk. cbv beta iota.
  intros [H|(c & _ & H)]%bind_raises; [by eapply unpack_u32_le_raises|].
  revert H. rewrite read_chunk. cbv beta iota.
  intros [H|(n & _ & H)]%bind_raises; [by eapply unpack_u32_le_raises|].
  revert H. rewrite read_chunk. cbv beta iota. discriminate.
Qed.

Lemma decode_stream_raises (size : nat) (key_box : bytes) (f : file) (e : exn) :
  decode_stream size key_box f = Raise e -> e = IndexError.
Proof. unfold decode_stream. apply decode_loop_raises. Qed.

(** X15: an [AssertionError] out of the parser always means a bad
    signature.  The parser raises it exactly when the first 8 bytes of the
    file are not the magic signature; no later stage (key block, metadata,
    cover, decoding) raises one. *)
Theorem assertion_means_bad_magic (h : host) (content : bytes)
    (target_folder filename : list Z) :
  parse_container h content target_folder filename = Raise AssertionError
  <-> take 8 content <> magic.
Proof.
  split; [|apply parse_container_bad_magic].
  intros Hraise Hmagic. revert Hraise.
  unfold parse_container. rewrite read_chunk. cbn [data pos]. rewrite drop_0.
  rewrite bool_decide_eq_true_2 by done. intros Hraise.
  apply bind_raises in Hraise as [Hkey|([key_box f1] & _ & Hraise)].
  { apply read_key_box_raises in Hkey as [Hkey|[Hkey|Hkey]]; discriminate. }
  apply bind_raises in Hraise as [Hmeta|([meta f2] & _ & Hraise)].
  { by apply read_meta_raises in Hmeta. }
  apply bind_raises in Hraise as [Hcover|([image f3] & _ & Hraise)].
  { apply read_cover_raises in Hcover. discriminate. }
  apply bind_raises in Hraise as [Hfmt|(fmt & _ & Hraise)].
  { apply json_getitem_raises in Hfmt as [Hfmt|Hfmt]; discriminate. }
  apply bind_raises in Hraise as [Hdec|([audio f4] & _ & Hraise)].
  { apply decode_stream_raises in Hdec. discriminate. }
  discriminate.
Qed.
